(** * A2SNN adversarial trainers: a shallow embedding of [adversarial.py]

    The file embeds the two training procedures of [adversarial.py],
    [train_adv] and [meta_train_adv], and proves properties of their control
    flow, bookkeeping and loss arithmetic.

    Conventions of the embedding.
    - Python floats and scalar torch values are real numbers ([R]) and their
      arithmetic is exact; infinities and NaN are outside the model. The one
      rounding the embedding keeps is the conversion of the Python-float
      entropy threshold to float32, the dtype of the entropy tensor it is
      subtracted from ([round_float32]), because it decides whether the
      penalty is zero.
    - A data loader is the finite list of batches one pass over it yields;
      [iter(loader)] starts a fresh pass at the head of that list.
    - The model object, the attack, the forward pass, autograd, the Adam
      update rule, the accuracy evaluator and numpy's generator are external
      collaborators: they are fields of the classes [Carriers] and [External].
    - Calls that reach outside the procedure (attack, forward pass,
      [loss.backward()], accuracy, the validation iterator, [torch.save],
      [print], [np.save]) are recorded, in program order, in the log of the
      [World].
    - [.to(device)] moves a tensor without changing its value: identity. *)

From Stdlib Require Import Reals Lra Ascii String.
From stdpp Require Import gmap strings list.

(** ** Python values and exceptions *)

(** The value stored under [args['epsilon']]: the code inspects its run-time
    type, so the embedding keeps it. *)
Inductive pyobj : Type :=
  | PyNone
  | PyInt (n : Z)
  | PyFloat (x : R)
  | PyStr (s : string).

(** [isinstance(v, float)]: an [int] is not a [float]. *)
Definition isinstance_float (v : pyobj) : option R :=
  match v with
  | PyFloat x => Some x
  | _ => None
  end.

(** [v == s] for a string literal [s]. *)
Definition py_eq_str (v : pyobj) (s : string) : bool :=
  match v with
  | PyStr t => String.eqb t s
  | _ => false
  end.

Inductive exn : Type :=
  | StopIteration
  | ValueError.

Definition exn_eqb (a b : exn) : bool :=
  match a, b with
  | StopIteration, StopIteration => true
  | ValueError, ValueError => true
  | _, _ => false
  end.

Inductive result (A : Type) : Type :=
  | Ok (a : A)
  | Raise (e : exn).
Arguments Ok {A} a.
Arguments Raise {A} e.

(** [os.path.join(dir, file)] for a relative [file]. *)
Definition ends_with_sep (s : string) : bool :=
  match last (String.list_ascii_of_string s) with
  | Some c => Ascii.eqb c "/"%char
  | None => false
  end.

Definition path_join (dir file : string) : string :=
  if String.eqb dir "" then file
  else if ends_with_sep dir then (dir ++ file)%string
  else (dir ++ "/" ++ file)%string.

(** ** The model object and its parameters *)

(** The carriers of the external world. *)
Class Carriers : Type := {
  tensor : Type;      (* torch.Tensor values: inputs, labels, logits, weights *)
  hidden : Type;      (* whatever the model holds besides named parameters *)
  np_random : Type;   (* the state of numpy's global generator *)
  adam_state : Type;  (* Adam's per-parameter moment estimates *)
}.

(** A parameter is named by its attribute path inside the model, as in
    [named_parameters()]: [["noise"; "fc_b"; "weight"]]. *)
Abbreviation name := (list string).

Section Model.
Context {carriers : Carriers}.

Record Param : Type := mkParam {
  data : tensor;
  grad : option tensor;
}.

Record Model : Type := mkModel {
  named_parameters : gmap name Param;
  training : bool;
  rest : hidden;
}.

Definition Batch : Type := tensor * tensor.
Definition Loader : Type := list Batch.

Definition with_parameters (ps : gmap name Param) (m : Model) : Model :=
  {| named_parameters := ps; training := training m; rest := rest m |}.

(** [model.train()] *)
Definition model_train (m : Model) : Model :=
  {| named_parameters := named_parameters m; training := true; rest := rest m |}.

(** [model.state_dict()]: the current value of every parameter. *)
Definition state_dict (m : Model) : gmap name tensor :=
  data <$> named_parameters m.

(** [model.<path>.parameters()]: the parameters below the sub-module at
    [path]; [model.parameters()] is [parameters [] model]. *)
Definition parameters (path : name) (m : Model) : list name :=
  filter (λ n, path `prefix_of` n) (elements (dom (named_parameters m))).

(** ** The Adam optimizer *)

Record Adam : Type := mkAdam {
  param_groups : list (list name);
  lr_of : R;
  state : gmap name adam_state;
}.

(** The parameters an optimizer was constructed over. *)
Definition scope (o : Adam) : list name := concat (param_groups o).

(** [Adam(groups, lr=lr)] *)
Definition Adam_new (groups : list (list name)) (lr : R) : Adam :=
  {| param_groups := groups; lr_of := lr; state := ∅ |}.

(** [optimizer.zero_grad()]: drops the gradient of every parameter in scope. *)
Definition zero_grad (o : Adam) (m : Model) : Model :=
  with_parameters
    (foldr (λ n ps, alter (λ p, mkParam (data p) None) n ps)
           (named_parameters m) (scope o)) m.

Section Step.
Context (adam_init : adam_state)
        (adam_update : R → adam_state → tensor → tensor → adam_state * tensor).

(** One parameter of [optimizer.step()]: skipped when it has no gradient. *)
Definition step_param (lr : R) (n : name)
    (acc : gmap name adam_state * gmap name Param)
    : gmap name adam_state * gmap name Param :=
  let '(st, ps) := acc in
  match ps !! n with
  | Some p =>
      match grad p with
      | Some g =>
          let '(s', d') := adam_update lr (default adam_init (st !! n)) (data p) g in
          (<[n := s']> st, <[n := mkParam d' (Some g)]> ps)
      | None => acc
      end
  | None => acc
  end.

(** [optimizer.step()] *)
Definition Adam_step (o : Adam) (m : Model) : Adam * Model :=
  let '(st, ps) :=
    foldl (λ acc n, step_param (lr_of o) n acc)
          (state o, named_parameters m) (scope o) in
  ({| param_groups := param_groups o; lr_of := lr_of o; state := st |},
   with_parameters ps m).

End Step.

(** The sub-modules handed to the two optimizers of [meta_train_adv]. *)
Definition inner_modules : list name :=
  [ ["gen"]; ["noise"; "fc_mu"]; ["noise"; "fc_sigma"]; ["proto"] ]%string.

Definition outer_modules : list name :=
  [ ["noise"; "fc_b"]; ["reg_term"] ]%string.

Definition groups_of (modules : list name) (m : Model) : list (list name) :=
  (λ path, parameters path m) <$> modules.

End Model.

(** ** External collaborators *)

Class External {carriers : Carriers} : Type := {
  (* attack(model, data, target[, epsilon=...]) *)
  attack : Model → tensor → tensor → option R → Model * tensor;
  (* utils.normalize_cifar10 *)
  normalize_cifar10 : tensor → tensor;
  (* model(x): the logits; the call also refreshes model.noise.dist *)
  forward : Model → tensor → Model * tensor;
  (* nn.CrossEntropyLoss() *)
  cross_entropy : tensor → tensor → R;
  (* model.noise.dist.entropy(), one entry per component *)
  dist_entropy : Model → list R;
  (* model.get_reg_term() and model.get_b_vector() *)
  get_reg_term : Model → R;
  get_b_vector : Model → tensor;
  (* loss.backward() *)
  backward : R → Model → Model;
  (* Adam's update of one parameter from its gradient *)
  adam_init : adam_state;
  adam_update : R → adam_state → tensor → tensor → adam_state * tensor;
  (* metrics.accuracy(model, loader, device=device, norm=norm) *)
  accuracy : Model → Loader → option (tensor → tensor) → Model * R;
  (* one raw draw of numpy's global generator *)
  np_next : np_random → nat * np_random;
}.

(** The configuration dictionary [args]. *)
Record Args : Type := mkArgs {
  lr : R;
  meta_lr : R;
  num_epochs : Z;
  dataset : string;
  epsilon : pyobj;
  adv_loss_w : R;
  reg_term : R;
  var_threshold : R;
  output_models : string;   (* args['output_path']['models'] *)
  output_stats : string;    (* args['output_path']['stats'] *)
}.

Section World.
Context {carriers : Carriers} {ext : External}.

(** ** The world: the model object, numpy's generator and the call log *)

Inductive event : Type :=
  | EAttack (data target : tensor) (eps : option R)
  | EForward (x : tensor)
  | EBackward (loss : R)
  | EAccuracy (loader : Loader) (norm : option (tensor → tensor))
  | EValIter                         (* iter(val_loader) *)
  | EValNext (b : option Batch)      (* next(val_iter): a batch, or StopIteration *)
  | ETorchSave (sd : gmap name tensor) (path : string)
  | EPrint (epoch : nat) (train_acc test_acc : R)
  | ENpSave (path : string) (arr : list R)
  | ENpSaveTensors (path : string) (arr : list tensor).

Record World : Type := mkWorld {
  w_model : Model;
  w_rng : np_random;
  w_log : list event;
}.

(** Computations that read and write the world and may raise; what was done
    before an exception stays done. *)
Definition M (A : Type) : Type := World → result A * World.

Definition ret {A} (a : A) : M A := λ w, (Ok a, w).

Definition bind {A B} (c : M A) (k : A → M B) : M B :=
  λ w, match c w with
       | (Ok a, w') => k a w'
       | (Raise e, w') => (Raise e, w')
       end.

Definition raise {A} (e : exn) : M A := λ w, (Raise e, w).

(** [try: c except e: handler] *)
Definition try_except {A} (c : M A) (e : exn) (handler : M A) : M A :=
  λ w, match c w with
       | (Ok a, w') => (Ok a, w')
       | (Raise e', w') => if exn_eqb e e' then handler w' else (Raise e', w')
       end.

#[global] Instance M_ret : MRet M := @ret.
#[global] Instance M_bind : MBind M := λ A B k c, bind c k.

Definition emit (e : event) : M unit :=
  λ w, (Ok tt, mkWorld (w_model w) (w_rng w) (w_log w ++ [e])).

Definition get_model : M Model := λ w, (Ok (w_model w), w).

Definition on_model {A} (f : Model → Model * A) : M A :=
  λ w, let '(m, a) := f (w_model w) in (Ok a, mkWorld m (w_rng w) (w_log w)).

Definition modify_model (f : Model → Model) : M unit :=
  on_model (λ m, (f m, tt)).

(** [for x in l: s = body(x, s)] *)
Fixpoint for_each {A St} (l : list A) (body : A → St → M St) (s : St) : M St :=
  match l with
  | [] => ret s
  | x :: l' => s' ← body x s; for_each l' body s'
  end.

(** [l[-1]] of a list of floats the code has just appended to. *)
Definition py_last (l : list R) : R := default 0%R (last l).

(** [math.log(x)]: a domain error outside the positive reals. *)
Definition math_log (x : R) : M R :=
  if Rlt_dec 0 x then ret (ln x) else raise ValueError.

(** [np.random.choice(l)]: the element at a drawn position. *)
Definition np_random_choice (l : list R) : M R :=
  match l with
  | [] => raise ValueError
  | d :: _ =>
      λ w, let '(i, g) := np_next (w_rng w) in
           (Ok (nth (i mod length l) l d), mkWorld (w_model w) g (w_log w))
  end.

Definition call_attack (data target : tensor) (eps : option R) : M tensor :=
  emit (EAttack data target eps);;
  on_model (λ m, attack m data target eps).

Definition call_forward (x : tensor) : M tensor :=
  emit (EForward x);;
  on_model (λ m, forward m x).

Definition call_accuracy (loader : Loader) (norm : option (tensor → tensor)) : M R :=
  emit (EAccuracy loader norm);;
  on_model (λ m, accuracy m loader norm).

(** [loss.backward()] *)
Definition call_backward (loss : R) : M unit :=
  emit (EBackward loss);;
  modify_model (backward loss).

(** [torch.save(model.state_dict(), os.path.join(dir, file))] *)
Definition torch_save_model (dir file : string) : M unit :=
  m ← get_model;
  emit (ETorchSave (state_dict m) (path_join dir file)).

(** [optimizer.step()] on the world's model. *)
Definition optimizer_step (o : Adam) : M Adam :=
  on_model (λ m, let '(o', m') := Adam_step adam_init adam_update o m in (m', o')).

(** [iter(val_loader)] and [next(val_iter)] *)
Definition val_iter_new (val_loader : Loader) : M (list Batch) :=
  emit EValIter;; mret val_loader.

Definition val_iter_next (val_iter : list Batch) : M (Batch * list Batch) :=
  match val_iter with
  | [] => emit (EValNext None);; raise StopIteration
  | b :: val_iter' => emit (EValNext (Some b));; mret (b, val_iter')
  end.

End World.

(** ** float32

    A Python float that meets a float32 tensor in an arithmetic operation is
    converted to float32 first: round to nearest, ties to even, onto the
    numbers [m * 2^e] with [|m| < 2^24]. The exponent range is not bounded
    here: no overflow to infinity, no subnormal numbers. *)

(** The nearest integer, ties to even. *)
Definition round_half_even (y : R) : Z :=
  let n := Zfloor y in
  if Rlt_dec (y - IZR n) (1 / 2) then n
  else if Rlt_dec (1 / 2) (y - IZR n) then (n + 1)%Z
  else if Z.even n then n else (n + 1)%Z.

(** The exponent [e] with [2^e <= x < 2^(e+1)], for positive [x]. *)
Definition binade (x : R) : Z := Zfloor (ln x / ln 2).

Definition round_float32_pos (x : R) : R :=
  let e := binade x in
  (IZR (round_half_even (x * powerRZ 2 (23 - e))) * powerRZ 2 (e - 23))%R.

Definition round_float32 (x : R) : R :=
  if Rlt_dec 0 x then round_float32_pos x
  else if Rlt_dec x 0 then (- round_float32_pos (- x))%R
  else 0%R.

(** ** Pieces shared by the three copies of the per-batch pipeline *)

Section Trainers.
Context {carriers : Carriers} {ext : External}.
Local Open Scope R_scope.

(** The discrete set the random perturbation strength is drawn from. *)
Definition eps_choices : list R :=
  [8 / 255; 16 / 255; 32 / 255; 64 / 255; 128 / 255].

(** Lines 29-35 (again at 95-101 and 127-133): pick the perturbation strength
    and call the attack. *)
Definition perturb (args : Args) (data target : tensor) : M tensor :=
  match isinstance_float (epsilon args) with
  | Some e => call_attack data target (Some e)
  | None =>
      if py_eq_str (epsilon args) "rand" then
        rand_epsilon ← np_random_choice eps_choices;
        call_attack data target (Some rand_epsilon)
      else call_attack data target None
  end.

(** Lines 16-19 (again at 80-83). *)
Definition select_norm (args : Args) : option (tensor → tensor) :=
  if String.eqb (dataset args) "cifar10" then Some normalize_cifar10 else None.

(** Lines 38-40: [if norm_func is not None: x = norm_func(x)]. *)
Definition apply_norm (norm_func : option (tensor → tensor)) (x : tensor) : tensor :=
  match norm_func with
  | Some f => f x
  | None => x
  end.

(** [torch.relu] and [.mean()] on the entries of a tensor. *)
Definition relu (x : R) : R := Rmax 0 x.

Definition sum_R (l : list R) : R := foldr Rplus 0 l.

Definition mean (l : list R) : R := sum_R l / INR (length l).

(** [torch.relu(noise_entropy_threshold - model.noise.dist.entropy()).mean()]:
    the left operand is a Python float and the right one a float32 tensor, so
    the threshold is converted to float32 before the subtraction. *)
Definition noise_penalty (noise_entropy_threshold : R) (entropy : list R) : R :=
  mean ((λ h, relu (round_float32 noise_entropy_threshold - h)) <$> entropy).

(** Line 20 (again at 84). *)
Definition entropy_threshold (args : Args) : M R :=
  l ← math_log (var_threshold args);
  mret (l + (1 + ln (2 * PI)) / 2).

(** ** [train_adv] *)

(** Lines 45-50: the loss of one batch. *)
Definition train_loss (args : Args) (noise_entropy_threshold : R) (m : Model)
    (logits_clean logits_adv target : tensor) : R :=
  let clean_loss := cross_entropy logits_clean target in
  let adv_loss := cross_entropy logits_adv target in
  let noise_entropy := noise_penalty noise_entropy_threshold (dist_entropy m) in
  let w := adv_loss_w args in
  w * adv_loss + (1 - w) * clean_loss + reg_term args * noise_entropy.

(** Lines 26-52: the body of the loop over training batches. *)
Definition train_adv_batch (args : Args) (norm_func : option (tensor → tensor))
    (noise_entropy_threshold : R) (b : Batch) (optimizer : Adam) : M Adam :=
  let '(data, target) := b in
  perturbed_data ← perturb args data target;
  modify_model model_train;;
  let data := apply_norm norm_func data in
  let perturbed_data := apply_norm norm_func perturbed_data in
  logits_clean ← call_forward data;
  logits_adv ← call_forward perturbed_data;
  modify_model (zero_grad optimizer);;
  m ← get_model;
  let loss := train_loss args noise_entropy_threshold m logits_clean logits_adv target in
  call_backward loss;;
  optimizer_step optimizer.

(** The accuracy bookkeeping both trainers keep across epochs. *)
Record Stats : Type := mkStats {
  best_test_acc : R;
  train_accuracy : list R;
  test_accuracy : list R;
}.

(** Lines 25-62: one epoch. *)
Definition train_adv_epoch (args : Args) (train_loader test_loader : Loader)
    (norm_func : option (tensor → tensor)) (noise_entropy_threshold : R)
    (epoch : nat) (loc : Adam * Stats) : M (Adam * Stats) :=
  let '(optimizer, st) := loc in
  optimizer ← for_each train_loader
                (train_adv_batch args norm_func noise_entropy_threshold) optimizer;
  a ← call_accuracy train_loader norm_func;
  let train_accuracy := train_accuracy st ++ [a] in
  a ← call_accuracy test_loader norm_func;
  let test_accuracy := test_accuracy st ++ [a] in
  torch_save_model (output_models args) "ckpt.pt";;
  best_test_acc ←
    (if Rlt_dec (best_test_acc st) (py_last test_accuracy) then
       torch_save_model (output_models args) "ckpt_best.pt";;
       mret (py_last test_accuracy)
     else mret (best_test_acc st));
  emit (EPrint (epoch + 1) (py_last train_accuracy) (py_last test_accuracy));;
  mret (optimizer, mkStats best_test_acc train_accuracy test_accuracy).

(** Lines 14-23: the state the epoch loop starts from. *)
Definition train_adv_init (args : Args) (m : Model) : Adam * Stats :=
  (Adam_new [parameters [] m] (lr args), mkStats (-1) [] []).

(** Lines 24-62: the first [n] rounds of [for epoch in range(...)]. *)
Definition train_adv_epochs (args : Args) (train_loader test_loader : Loader)
    (noise_entropy_threshold : R) (n : nat) (loc : Adam * Stats) : M (Adam * Stats) :=
  for_each (seq 0 n)
    (train_adv_epoch args train_loader test_loader (select_norm args)
       noise_entropy_threshold) loc.

Definition train_adv (train_loader test_loader : Loader) (args : Args) : M unit :=
  m ← get_model;
  let loc := train_adv_init args m in
  noise_entropy_threshold ← entropy_threshold args;
  '(_, st) ← train_adv_epochs args train_loader test_loader noise_entropy_threshold
               (Z.to_nat (num_epochs args)) loc;
  emit (ENpSave (path_join (output_stats args) "train_acc.npy") (train_accuracy st));;
  emit (ENpSave (path_join (output_stats args) "test_acc.npy") (test_accuracy st)).

(** ** [meta_train_adv] *)

(** Lines 111-116 and 143-148: the losses of the inner and the outer step. *)
Definition inner_loss (args : Args) (noise_entropy_threshold : R) (m : Model)
    (logits_clean_i logits_adv_i target_inner : tensor) : R :=
  let clean_loss_i := cross_entropy logits_clean_i target_inner in
  let adv_loss_i := cross_entropy logits_adv_i target_inner in
  let noise_entropy_i := noise_penalty noise_entropy_threshold (dist_entropy m) in
  let w := adv_loss_w args in
  w * adv_loss_i + (1 - w) * clean_loss_i + get_reg_term m * noise_entropy_i.

Definition outer_loss (args : Args) (noise_entropy_threshold : R) (m : Model)
    (logits_clean_o logits_adv_o target_outer : tensor) : R :=
  let clean_loss_outer := cross_entropy logits_clean_o target_outer in
  let adv_loss_outer := cross_entropy logits_adv_o target_outer in
  let noise_entropy_o := noise_penalty noise_entropy_threshold (dist_entropy m) in
  let w := adv_loss_w args in
  w * adv_loss_outer + (1 - w) * clean_loss_outer + get_reg_term m * noise_entropy_o.

(** Lines 92-118: the inner step, on a training batch. *)
Definition meta_inner_step (args : Args) (norm_func : option (tensor → tensor))
    (noise_entropy_threshold : R) (b : Batch) (optim_inner : Adam) : M Adam :=
  let '(data_inner, target_inner) := b in
  perturbed_data_inner ← perturb args data_inner target_inner;
  modify_model model_train;;
  let data_inner := apply_norm norm_func data_inner in
  let perturbed_data_inner := apply_norm norm_func perturbed_data_inner in
  logits_clean_i ← call_forward data_inner;
  logits_adv_i ← call_forward perturbed_data_inner;
  modify_model (zero_grad optim_inner);;
  m ← get_model;
  let loss_inner :=
    inner_loss args noise_entropy_threshold m logits_clean_i logits_adv_i target_inner in
  call_backward loss_inner;;
  optimizer_step optim_inner.

(** Lines 119-123: the next validation batch, restarting the pass once when
    the cursor is exhausted. *)
Definition next_val_batch (val_loader : Loader) (val_iter : list Batch)
    : M (Batch * list Batch) :=
  try_except (val_iter_next val_iter) StopIteration
    (val_iter ← val_iter_new val_loader;
     val_iter_next val_iter).

(** Lines 124-150: the outer step, on a validation batch. *)
Definition meta_outer_step (args : Args) (norm_func : option (tensor → tensor))
    (noise_entropy_threshold : R) (b : Batch) (optim_outer : Adam) : M Adam :=
  let '(data_outer, target_outer) := b in
  perturbed_data_outer ← perturb args data_outer target_outer;
  modify_model model_train;;
  let data_outer := apply_norm norm_func data_outer in
  let perturbed_data_outer := apply_norm norm_func perturbed_data_outer in
  logits_clean_o ← call_forward data_outer;
  logits_adv_o ← call_forward perturbed_data_outer;
  modify_model (zero_grad optim_outer);;
  m ← get_model;
  let loss_outer :=
    outer_loss args noise_entropy_threshold m logits_clean_o logits_adv_o target_outer in
  call_backward loss_outer;;
  optimizer_step optim_outer.

(** The local variables of [meta_train_adv] that outlive a batch. The
    histories record what the accessors returned when the entry was
    appended; the statements below only count their entries. *)
Record MetaLocals : Type := mkMetaLocals {
  optim_inner : Adam;
  optim_outer : Adam;
  stats : Stats;
  b_hist : list tensor;
  reg_term_hist : list R;
  val_iter : list Batch;
}.

(** Lines 91-150: the body of the loop over training batches. *)
Definition meta_train_batch (args : Args) (val_loader : Loader)
    (norm_func : option (tensor → tensor)) (noise_entropy_threshold : R)
    (b : Batch) (loc : MetaLocals) : M MetaLocals :=
  optim_inner ← meta_inner_step args norm_func noise_entropy_threshold b (optim_inner loc);
  '(b_outer, val_iter) ← next_val_batch val_loader (val_iter loc);
  optim_outer ← meta_outer_step args norm_func noise_entropy_threshold b_outer (optim_outer loc);
  mret (mkMetaLocals optim_inner optim_outer (stats loc) (b_hist loc) (reg_term_hist loc)
          val_iter).

(** Lines 91-162: one epoch. *)
Definition meta_train_epoch (args : Args) (train_loader val_loader test_loader : Loader)
    (norm_func : option (tensor → tensor)) (noise_entropy_threshold : R)
    (epoch : nat) (loc : MetaLocals) : M MetaLocals :=
  loc ← for_each train_loader
          (meta_train_batch args val_loader norm_func noise_entropy_threshold) loc;
  let st := stats loc in
  a ← call_accuracy train_loader norm_func;
  let train_accuracy := train_accuracy st ++ [a] in
  a ← call_accuracy test_loader norm_func;
  let test_accuracy := test_accuracy st ++ [a] in
  m ← get_model;
  let b_hist := b_hist loc ++ [get_b_vector m] in
  m ← get_model;
  let reg_term_hist := reg_term_hist loc ++ [get_reg_term m] in
  torch_save_model (output_models args) "ckpt.pt";;
  best_test_acc ←
    (if Rlt_dec (best_test_acc st) (py_last test_accuracy) then
       torch_save_model (output_models args) "ckpt_best.pt";;
       mret (py_last test_accuracy)
     else mret (best_test_acc st));
  emit (EPrint (epoch + 1) (py_last train_accuracy) (py_last test_accuracy));;
  mret (mkMetaLocals (optim_inner loc) (optim_outer loc)
          (mkStats best_test_acc train_accuracy test_accuracy)
          b_hist reg_term_hist (val_iter loc)).

(** Lines 69-89: the state the epoch loop starts from; [val_iter] is the
    cursor [iter(val_loader)] returned. *)
Definition meta_train_init (args : Args) (m : Model) (val_iter : list Batch) : MetaLocals :=
  mkMetaLocals (Adam_new (groups_of inner_modules m) (lr args))
               (Adam_new (groups_of outer_modules m) (meta_lr args))
               (mkStats (-1) [] []) [] [] val_iter.

(** Lines 90-162: the first [n] rounds of [for epoch in range(...)]. *)
Definition meta_train_epochs (args : Args) (train_loader val_loader test_loader : Loader)
    (noise_entropy_threshold : R) (n : nat) (loc : MetaLocals) : M MetaLocals :=
  for_each (seq 0 n)
    (meta_train_epoch args train_loader val_loader test_loader (select_norm args)
       noise_entropy_threshold) loc.

Definition meta_train_adv (train_loader val_loader test_loader : Loader) (args : Args)
    : M unit :=
  m ← get_model;
  noise_entropy_threshold ← entropy_threshold args;
  val_iter ← val_iter_new val_loader;
  let loc := meta_train_init args m val_iter in
  loc ← meta_train_epochs args train_loader val_loader test_loader noise_entropy_threshold
          (Z.to_nat (num_epochs args)) loc;
  emit (ENpSave (path_join (output_stats args) "train_acc.npy")
          (train_accuracy (stats loc)));;
  emit (ENpSave (path_join (output_stats args) "test_acc.npy")
          (test_accuracy (stats loc)));;
  emit (ENpSaveTensors (path_join (output_stats args) "b_hist.npy") (b_hist loc));;
  emit (ENpSave (path_join (output_stats args) "reg_term_hist.npy") (reg_term_hist loc)).

End Trainers.

(** * Vocabulary of the statements *)

Section Vocabulary.
Context {carriers : Carriers} {ext : External}.
Local Open Scope R_scope.

(** What [perturb] hands to the attack, given the state of numpy's generator. *)
Definition selected_epsilon (args : Args) (g : np_random) (eps : option R) : Prop :=
  (∀ x, epsilon args = PyFloat x → eps = Some x) ∧
  (epsilon args = PyStr "rand" → eps = eps_choices !! ((np_next g).1 mod 5)%nat) ∧
  ((∀ x, epsilon args ≠ PyFloat x) → epsilon args ≠ PyStr "rand" → eps = None).

(** The calls one pass through the pipeline makes on the batch [(d, t)]. *)
Definition step_log (norm_func : option (tensor → tensor)) (d t : tensor)
    (eps : option R) (x_adv : tensor) (loss : R) : list event :=
  [EAttack d t eps; EForward (apply_norm norm_func d);
   EForward (apply_norm norm_func x_adv); EBackward loss].

(** The events the loop over training batches produces. *)
Definition batch_event (e : event) : bool :=
  match e with
  | EAttack _ _ _ | EForward _ | EBackward _ | EValIter | EValNext _ => true
  | _ => false
  end.

(** The batches the validation cursor handed out, in order. *)
Definition val_draws (log : list event) : list Batch :=
  omap (λ e, match e with EValNext (Some b) => Some b | _ => None end) log.

(** The files [torch.save] wrote, in order. *)
Definition saved_paths (log : list event) : list string :=
  omap (λ e, match e with ETorchSave _ p => Some p | _ => None end) log.

Definition is_print (e : event) : bool :=
  match e with EPrint _ _ _ => true | _ => false end.

Definition ckpt_path (args : Args) : string := path_join (output_models args) "ckpt.pt".
Definition best_path (args : Args) : string := path_join (output_models args) "ckpt_best.pt".

(** What [next_val_batch] returns, as a function of the source and the
    cursor: [None] stands for the exhaustion it lets through. *)
Definition cursor_draw (val it : list Batch) : option (Batch * list Batch) :=
  match it, val with
  | b :: it', _ => Some (b, it')
  | [], b :: v => Some (b, v)
  | [], [] => None
  end.

(** After [c] draws from a fresh cursor over a non-empty source, the cursor
    stands at a position congruent to [c]. *)
Definition cursor_at (val : list Batch) (c : nat) (it : list Batch) : Prop :=
  ∃ pos, it = drop pos val ∧ (pos ≤ length val)%nat ∧
         (pos mod length val = c mod length val)%nat.

(** What one epoch appends to the log after its batches. *)
Definition epoch_tail (args : Args) (train test : Loader)
    (nf : option (tensor → tensor)) (epoch : nat) (best tr te : R)
    (sd : gmap name tensor) : list event :=
  [EAccuracy train nf; EAccuracy test nf; ETorchSave sd (ckpt_path args)] ++
  (if Rlt_dec best te then [ETorchSave sd (best_path args)] else []) ++
  [EPrint (epoch + 1) tr te].

(** The bookkeeping of one epoch, applied to the statistics. *)
Definition stats_after (st : Stats) (tr te : R) : Stats :=
  mkStats (if Rlt_dec (best_test_acc st) te then te else best_test_acc st)
          (train_accuracy st ++ [tr]) (test_accuracy st ++ [te]).

(** The accuracy evaluator's contract: a value in [[0, 1]]. *)
Definition accuracy_in_unit_interval : Prop :=
  ∀ m l nf, 0 <= (accuracy m l nf).2 <= 1.

(** The marker is the largest test accuracy so far, or still its initial -1. *)
Definition stats_ok (st : Stats) : Prop :=
  (∀ a, a ∈ test_accuracy st → a <= best_test_acc st) ∧
  (best_test_acc st = -1 ∨ best_test_acc st ∈ test_accuracy st).

(** What a batch of the meta trainer leaves alone. *)
Definition same_bookkeeping (loc loc' : MetaLocals) : Prop :=
  stats loc' = stats loc ∧ b_hist loc' = b_hist loc ∧
  reg_term_hist loc' = reg_term_hist loc ∧
  param_groups (optim_inner loc') = param_groups (optim_inner loc) ∧
  param_groups (optim_outer loc') = param_groups (optim_outer loc).

(** The value [entropy_threshold] computes when [var_threshold] is positive. *)
Definition threshold_of (args : Args) : R :=
  ln (var_threshold args) + (1 + ln (2 * PI)) / 2.

(** The two arrays [train_adv] saves at the end. *)
Definition final_saves (args : Args) (st : Stats) : list event :=
  [ENpSave (path_join (output_stats args) "train_acc.npy") (train_accuracy st);
   ENpSave (path_join (output_stats args) "test_acc.npy") (test_accuracy st)].

(** The four arrays [meta_train_adv] saves at the end. *)
Definition meta_final_saves (args : Args) (loc : MetaLocals) : list event :=
  final_saves args (stats loc) ++
  [ENpSaveTensors (path_join (output_stats args) "b_hist.npy") (b_hist loc);
   ENpSave (path_join (output_stats args) "reg_term_hist.npy") (reg_term_hist loc)].

(** The world in which the epoch loop of [meta_train_adv] starts. *)
Definition after_iter (w : World) : World :=
  mkWorld (w_model w) (w_rng w) (w_log w ++ [EValIter]).


(** [args] with another fixed regularization coefficient. *)
Definition set_reg_term (r : R) (args : Args) : Args :=
  mkArgs (lr args) (meta_lr args) (num_epochs args) (dataset args) (epsilon args)
         (adv_loss_w args) r (var_threshold args) (output_models args)
         (output_stats args).

(** The batches handed to the attack, in order. *)
Definition attacked (log : list event) : list Batch :=
  omap (λ e, match e with EAttack d t _ => Some (d, t) | _ => None end) log.

(** The [torch.save] calls, in order: what was saved and where. *)
Definition torch_saves (log : list event) : list (gmap name tensor * string) :=
  omap (λ e, match e with ETorchSave sd p => Some (sd, p) | _ => None end) log.

(** The lines printed, in order: epoch number, train and test accuracy. *)
Definition prints (log : list event) : list (nat * (R * R)) :=
  omap (λ e, match e with EPrint i tr te => Some (i, (tr, te)) | _ => None end) log.

(** The arrays handed to [np.save], in order. *)
Definition np_saved (log : list event) : list string :=
  omap (λ e, match e with
             | ENpSave p _ | ENpSaveTensors p _ => Some p
             | _ => None
             end) log.

(** The state of numpy's generator after one pass through [perturb]. *)
Definition rng_after_attack (args : Args) (g : np_random) : np_random :=
  if py_eq_str (epsilon args) "rand" then (np_next g).2 else g.

(** [a1, b1, a2, b2, ...] *)
Definition interleave {A} (l1 l2 : list A) : list A :=
  concat (zip_with (λ a b, [a; b]) l1 l2).

(** The largest of -1 and the entries of a list. *)
Definition max_acc (l : list R) : R := foldl Rmax (-1) l.

(** Line 58: [test_accuracy[-1] > best_test_acc], as a boolean. *)
Definition new_best (best te : R) : bool :=
  if Rlt_dec best te then true else false.

(** What one epoch saves: the latest checkpoint, then possibly the best one,
    both holding the same state. *)
Definition round_saves (args : Args) (r : gmap name tensor * bool)
    : list (gmap name tensor * string) :=
  (r.1, ckpt_path args) :: (if r.2 then [(r.1, best_path args)] else []).

(** The log of [n] consecutive epochs, starting with epoch number [s] and
    the statistics [st]: each epoch contributes the events of its batches,
    which satisfy [P], and then its bookkeeping. *)
Inductive rounds_log (P : list event → Prop) (args : Args) (train test : Loader)
    (nf : option (tensor → tensor))
    : nat → Stats → list event → Stats → nat → Prop :=
  | rounds_nil s st : rounds_log P args train test nf s st [] st 0
  | rounds_cons s st evs tr te sd rest st' n :
      P evs → Forall batch_event evs →
      rounds_log P args train test nf (S s) (stats_after st tr te) rest st' n →
      rounds_log P args train test nf s st
        (evs ++ epoch_tail args train test nf s (best_test_acc st) tr te sd ++ rest)
        st' (S n).

(** The batch events of one epoch of [train_adv], of [meta_train_adv]. *)
Definition train_round (train : Loader) (evs : list event) : Prop :=
  attacked evs = train.

Definition meta_round (train : Loader) (evs : list event) : Prop :=
  attacked evs = interleave train (val_draws evs) ∧
  length (val_draws evs) = length train.

(** The six files a run can write. *)
Definition output_files (args : Args) : list string :=
  [ckpt_path args; best_path args;
   path_join (output_stats args) "train_acc.npy";
   path_join (output_stats args) "test_acc.npy";
   path_join (output_stats args) "b_hist.npy";
   path_join (output_stats args) "reg_term_hist.npy"].

(** ** One pass through the pipeline, in the words of the spec *)

(** The values one pass computes from the model [m] it starts with: the
    attack's output, [model.train()], the logits of the two forward passes
    on the (possibly normalized) clean and perturbed input, and the model
    [zero_grad] leaves, which is the one the loss is computed on. *)
Record Pass : Type := mkPass {
  pass_x_adv : tensor;
  pass_logits_clean : tensor;
  pass_logits_adv : tensor;
  pass_model : Model;
}.

Definition pass_of (nf : option (tensor → tensor)) (opt : Adam) (eps : option R)
    (b : Batch) (m : Model) : Pass :=
  let a := attack m b.1 b.2 eps in
  let c := forward (model_train a.1) (apply_norm nf b.1) in
  let p := forward c.1 (apply_norm nf a.2) in
  mkPass a.2 c.2 p.2 (zero_grad opt p.1).

(** [seg] is the log of one pass on the batch [b]: the attack on the raw
    batch, the two forward passes, and [backward] on the loss [loss_of b p]
    of the values [p] the pass computed. *)
Definition pass_with_loss (nf : option (tensor → tensor)) (loss_of : Batch → Pass → R)
    (b : Batch) (seg : list event) : Prop :=
  ∃ m opt eps,
    let p := pass_of nf opt eps b m in
    seg = [EAttack b.1 b.2 eps; EForward (apply_norm nf b.1);
           EForward (apply_norm nf (pass_x_adv p)); EBackward (loss_of b p)].

(** The same, looking only at what is fed to the forward passes. *)
Definition normalized_pass (nf : option (tensor → tensor)) (b : Batch)
    (seg : list event) : Prop :=
  ∃ m eps loss,
    seg = [EAttack b.1 b.2 eps; EForward (apply_norm nf b.1);
           EForward (apply_norm nf (attack m b.1 b.2 eps).2); EBackward loss].

(** The loss function of the standard trainer at the values of a pass. *)
Definition train_loss_at (args : Args) (T : R) (b : Batch) (p : Pass) : R :=
  train_loss args T (pass_model p) (pass_logits_clean p) (pass_logits_adv p) b.2.

(** The loss of the meta steps in the standard trainer's words: the same
    function, with the coefficient of the penalty read from the model of
    the pass. *)
Definition meta_loss_at (args : Args) (T : R) (b : Batch) (p : Pass) : R :=
  train_loss_at (set_reg_term (get_reg_term (pass_model p)) args) T b p.

(** The batch events of one epoch of [train_adv]: one segment per training
    batch, in order, each satisfying [Q]. *)
Definition train_batches_log (Q : Batch → list event → Prop) (train : Loader)
    (evs : list event) : Prop :=
  ∃ segs, evs = concat segs ∧ Forall2 Q train segs.

(** The events of one training batch in [meta_train_adv]: the inner pass on
    the batch, the draw of a validation batch [b'] (directly, or after one
    restart of the pass), the outer pass on [b']. *)
Definition meta_batch_log (Qi Qo : Batch → list event → Prop) (b : Batch)
    (seg : list event) : Prop :=
  ∃ si b' so,
    Qi b si ∧ Qo b' so ∧
    (seg = si ++ [EValNext (Some b')] ++ so ∨
     seg = si ++ [EValNext None; EValIter; EValNext (Some b')] ++ so).

(** The calls of the accuracy evaluator, in order: the source and the
    normalization it was given. *)
Definition accuracy_calls (log : list event)
    : list (Loader * option (tensor → tensor)) :=
  omap (λ e, match e with EAccuracy l nf => Some (l, nf) | _ => None end) log.

End Vocabulary.


(** ** A small concrete world

    Tensors are natural numbers, the attack adds one, normalization doubles,
    the model has one parameter in each optimizer scope and one in neither,
    the evaluator always reports one half, and the entropy of the noise
    distribution has the two components 1 and 2. *)

#[export] Instance toy_carriers : Carriers :=
  {| tensor := nat; hidden := unit; np_random := nat; adam_state := unit |}.

#[export] Instance toy_external : External :=
  {| attack := λ m d _ _, (m, S d);
     normalize_cifar10 := λ x, (2 * x)%nat;
     forward := λ m x, (m, x);
     cross_entropy := λ _ _, 1%R;
     dist_entropy := λ _, [1%R; 2%R];
     get_reg_term := λ _, (1 / 2)%R;
     get_b_vector := λ _, 0%nat;
     backward := λ _ m, m;
     adam_init := tt;
     adam_update := λ _ _ d _, (tt, S d);
     accuracy := λ m _ _, (m, (1 / 2)%R);
     np_next := λ g, (g, S g) |}.

Definition toy_param : Param := mkParam 0%nat (Some 1%nat).

Definition toy_model : Model :=
  mkModel
    (<[ ["gen"; "weight"] := toy_param ]>
       (<[ ["noise"; "fc_b"; "weight"] := toy_param ]>
          (<[ ["classifier"; "weight"] := toy_param ]> ∅)))
    false tt.

Definition toy_world : World := mkWorld toy_model 0%nat [].

Definition toy_train : @Loader toy_carriers := [(1, 0)%nat].
Definition toy_train5 : @Loader toy_carriers :=
  [(1, 0); (2, 0); (3, 0); (4, 0); (5, 0)]%nat.
Definition toy_val : @Loader toy_carriers := [(7, 1)%nat].
Definition toy_test : @Loader toy_carriers := [(3, 1)%nat].

(** The configuration of the spec's end-to-end scenario. *)
Definition toy_args : Args :=
  {| lr := 1 / 1000; meta_lr := 1 / 1000; num_epochs := 1; dataset := "cifar10";
     epsilon := PyFloat (1 / 10); adv_loss_w := 1 / 2; reg_term := 1 / 100;
     var_threshold := 1; output_models := "out/models"; output_stats := "out/stats" |}.


(** The same with no epoch to run. *)
Definition no_epoch_args : Args :=
  {| lr := 1 / 1000; meta_lr := 1 / 1000; num_epochs := 0; dataset := "cifar10";
     epsilon := PyFloat (1 / 10); adv_loss_w := 1 / 2; reg_term := 1 / 100;
     var_threshold := 1; output_models := "out/models"; output_stats := "out/stats" |}.


(** * Properties *)

Section Properties.
Context {carriers : Carriers} {ext : External}.
Local Open Scope R_scope.

Ltac munfold := unfold mbind, M_bind, mret, M_ret, bind, ret.

Lemma bind_ok {A B} (c : M A) (k : A → M B) w a w' :
  c w = (Ok a, w') → (c ≫= k) w = k a w'.
Proof. intros E. munfold. by rewrite E. Qed.

Lemma bind_raise {A B} (c : M A) (k : A → M B) w e w' :
  c w = (Raise e, w') → (c ≫= k) w = (Raise e, w').
Proof. intros E. munfold. by rewrite E. Qed.

Lemma call_attack_run d t eps w :
  call_attack d t eps w =
    (Ok (attack (w_model w) d t eps).2,
     mkWorld (attack (w_model w) d t eps).1 (w_rng w) (w_log w ++ [EAttack d t eps])).
Proof.
  unfold call_attack, emit, on_model. munfold. simpl.
  by destruct (attack (w_model w) d t eps).
Qed.

Lemma call_forward_run x w :
  call_forward x w =
    (Ok (forward (w_model w) x).2,
     mkWorld (forward (w_model w) x).1 (w_rng w) (w_log w ++ [EForward x])).
Proof.
  unfold call_forward, emit, on_model. munfold. simpl.
  by destruct (forward (w_model w) x).
Qed.

Lemma call_accuracy_run l nf w :
  call_accuracy l nf w =
    (Ok (accuracy (w_model w) l nf).2,
     mkWorld (accuracy (w_model w) l nf).1 (w_rng w) (w_log w ++ [EAccuracy l nf])).
Proof.
  unfold call_accuracy, emit, on_model. munfold. simpl.
  by destruct (accuracy (w_model w) l nf).
Qed.

Lemma modify_model_run f w :
  modify_model f w = (Ok tt, mkWorld (f (w_model w)) (w_rng w) (w_log w)).
Proof. reflexivity. Qed.

Lemma optimizer_step_run o w :
  optimizer_step o w =
    (Ok (Adam_step adam_init adam_update o (w_model w)).1,
     mkWorld (Adam_step adam_init adam_update o (w_model w)).2 (w_rng w) (w_log w)).
Proof.
  unfold optimizer_step, on_model.
  by destruct (Adam_step adam_init adam_update o (w_model w)).
Qed.

Lemma torch_save_model_run dir file w :
  torch_save_model dir file w =
    (Ok tt, mkWorld (w_model w) (w_rng w)
              (w_log w ++ [ETorchSave (state_dict (w_model w)) (path_join dir file)])).
Proof. reflexivity. Qed.

Lemma py_eq_str_true v s : py_eq_str v s = true ↔ v = PyStr s.
Proof.
  destruct v; simpl; split; try discriminate.
  - intros E. apply String.eqb_eq in E. by subst.
  - intros [= ->]. apply String.eqb_refl.
Qed.

Lemma nth_eps_choices i d :
  (i < 5)%nat → Some (nth i eps_choices d) = eps_choices !! i.
Proof.
  intros Hi. do 5 (destruct i as [|i]; [reflexivity|]). lia.
Qed.

Lemma np_random_choice_eps_run w :
  np_random_choice eps_choices w =
    (Ok (nth ((np_next (w_rng w)).1 mod 5) eps_choices (8 / 255)),
     mkWorld (w_model w) (np_next (w_rng w)).2 (w_log w)).
Proof.
  unfold np_random_choice, eps_choices. by destruct (np_next (w_rng w)).
Qed.

Lemma perturb_spec args d t w :
  ∃ eps g,
    selected_epsilon args (w_rng w) eps ∧
    perturb args d t w =
      (Ok (attack (w_model w) d t eps).2,
       mkWorld (attack (w_model w) d t eps).1 g (w_log w ++ [EAttack d t eps])).
Proof.
  unfold perturb, selected_epsilon.
  destruct (isinstance_float (epsilon args)) as [e|] eqn:Ef.
  - exists (Some e), (w_rng w). split; [|apply call_attack_run].
    destruct (epsilon args); try discriminate. injection Ef as ->.
    repeat split; congruence.
  - destruct (py_eq_str (epsilon args) "rand") eqn:Er.
    + apply py_eq_str_true in Er.
      exists (Some (nth ((np_next (w_rng w)).1 mod 5) eps_choices (8 / 255))),
             (np_next (w_rng w)).2.
      split.
      * repeat split; try congruence.
        intros _. apply nth_eps_choices. by apply Nat.mod_upper_bound.
      * erewrite bind_ok; [|apply np_random_choice_eps_run].
        by rewrite call_attack_run.
    + exists None, (w_rng w). split; [|apply call_attack_run].
      repeat split; try done.
      * intros x Hx. by rewrite Hx in Ef.
      * intros Hr. apply py_eq_str_true in Hr. congruence.
Qed.

Lemma for_each_app {A St} (l1 l2 : list A) (body : A → St → M St) s w :
  for_each (l1 ++ l2) body s w = (for_each l1 body s ≫= for_each l2 body) w.
Proof.
  revert s w. induction l1 as [|x l1 IH]; intros s w; simpl.
  - reflexivity.
  - munfold. destruct (body x s w) as [[s'|e] w']; [apply IH|reflexivity].
Qed.

(** A loop none of whose rounds raises: an invariant indexed by the number
    of rounds done. *)
Lemma for_each_inv {A St} (I : nat → St → World → Prop) (l : list A)
    (body : A → St → M St) :
  (∀ i x s w, l !! i = Some x → I i s w →
     ∃ s' w', body x s w = (Ok s', w') ∧ I (S i) s' w') →
  ∀ s w, I 0%nat s w →
    ∃ s' w', for_each l body s w = (Ok s', w') ∧ I (length l) s' w'.
Proof.
  revert I. induction l as [|x l IH]; intros I Hbody s w HI; simpl.
  - by exists s, w.
  - destruct (Hbody 0%nat x s w eq_refl HI) as (s1 & w1 & E1 & HI1).
    destruct (IH (λ i, I (S i)) (λ i, Hbody (S i)) s1 w1 HI1)
      as (s2 & w2 & E2 & HI2).
    exists s2, w2. split; [|done]. by erewrite bind_ok.
Qed.

Lemma lookup_seq_Some s n i x : seq s n !! i = Some x → x = (s + i)%nat.
Proof. intros Hl. apply lookup_seq in Hl. lia. Qed.

Lemma call_backward_run loss w :
  call_backward loss w =
    (Ok tt, mkWorld (backward loss (w_model w)) (w_rng w) (w_log w ++ [EBackward loss])).
Proof. reflexivity. Qed.

Lemma Adam_step_groups o m :
  param_groups (Adam_step adam_init adam_update o m).1 = param_groups o.
Proof. unfold Adam_step. by destruct (foldl _ _ _). Qed.

Ltac mrun :=
  repeat first
    [ rewrite modify_model_run | rewrite call_forward_run
    | rewrite call_backward_run
    | rewrite optimizer_step_run | rewrite call_accuracy_run
    | rewrite torch_save_model_run
    | progress cbn [w_model w_rng w_log fst snd]
    | progress unfold get_model, emit
    | progress munfold ].

Ltac pipeline_spec E eps :=
  erewrite bind_ok by exact E;
  mrun;
  eexists _, _, eps, _, _, _;
  split; [reflexivity|]; split; [done|]; split; [|apply Adam_step_groups];
  simpl; unfold step_log; by rewrite <- !app_assoc.

Lemma train_adv_batch_spec args nf thr d t opt w :
  ∃ opt' w' eps m lc la,
    train_adv_batch args nf thr (d, t) opt w = (Ok opt', w') ∧
    selected_epsilon args (w_rng w) eps ∧
    w_log w' = w_log w ++
      step_log nf d t eps (attack (w_model w) d t eps).2 (train_loss args thr m lc la t) ∧
    param_groups opt' = param_groups opt.
Proof.
  destruct (perturb_spec args d t w) as (eps & g & Hsel & E).
  unfold train_adv_batch. pipeline_spec E eps.
Qed.

Lemma meta_inner_step_spec args nf thr d t opt w :
  ∃ opt' w' eps m lc la,
    meta_inner_step args nf thr (d, t) opt w = (Ok opt', w') ∧
    selected_epsilon args (w_rng w) eps ∧
    w_log w' = w_log w ++
      step_log nf d t eps (attack (w_model w) d t eps).2 (inner_loss args thr m lc la t) ∧
    param_groups opt' = param_groups opt.
Proof.
  destruct (perturb_spec args d t w) as (eps & g & Hsel & E).
  unfold meta_inner_step. pipeline_spec E eps.
Qed.

Lemma meta_outer_step_spec args nf thr d t opt w :
  ∃ opt' w' eps m lc la,
    meta_outer_step args nf thr (d, t) opt w = (Ok opt', w') ∧
    selected_epsilon args (w_rng w) eps ∧
    w_log w' = w_log w ++
      step_log nf d t eps (attack (w_model w) d t eps).2 (outer_loss args thr m lc la t) ∧
    param_groups opt' = param_groups opt.
Proof.
  destruct (perturb_spec args d t w) as (eps & g & Hsel & E).
  unfold meta_outer_step. pipeline_spec E eps.
Qed.

Lemma val_draws_app l1 l2 : val_draws (l1 ++ l2) = val_draws l1 ++ val_draws l2.
Proof. apply omap_app. Qed.

Lemma saved_paths_app l1 l2 : saved_paths (l1 ++ l2) = saved_paths l1 ++ saved_paths l2.
Proof. apply omap_app. Qed.

Lemma saved_paths_batch evs : Forall batch_event evs → saved_paths evs = [].
Proof.
  induction 1 as [|e evs He _ IH]; [done|].
  destruct e; try done; simpl in *; apply IH.
Qed.

Lemma no_print_batch evs : Forall batch_event evs → Forall (λ e, is_print e = false) evs.
Proof. intros Hf. eapply Forall_impl; [exact Hf|]. by intros []. Qed.

Lemma step_log_batch nf d t eps x loss : Forall batch_event (step_log nf d t eps x loss).
Proof. by repeat constructor. Qed.

Lemma val_draws_step_log nf d t eps x loss : val_draws (step_log nf d t eps x loss) = [].
Proof. reflexivity. Qed.

Lemma string_app_inj_l (s a b : string) : (s ++ a)%string = (s ++ b)%string → a = b.
Proof. induction s as [|c s IH]; simpl; [done|]. intros [= E]. by apply IH. Qed.

Lemma ckpt_path_ne_best args : ckpt_path args ≠ best_path args.
Proof.
  unfold ckpt_path, best_path, path_join.
  destruct (String.eqb _ _); [done|].
  destruct (ends_with_sep _); intros E; by apply string_app_inj_l in E.
Qed.

Lemma next_val_batch_cons val b it w :
  next_val_batch val (b :: it) w =
    (Ok (b, it), mkWorld (w_model w) (w_rng w) (w_log w ++ [EValNext (Some b)])).
Proof. reflexivity. Qed.

Lemma next_val_batch_wrap b v w :
  next_val_batch (b :: v) [] w =
    (Ok (b, v), mkWorld (w_model w) (w_rng w)
                  (w_log w ++ [EValNext None; EValIter; EValNext (Some b)])).
Proof.
  cbv [next_val_batch try_except val_iter_next val_iter_new emit raise exn_eqb
       mbind M_bind mret M_ret bind ret w_model w_rng w_log].
  by rewrite <- !app_assoc.
Qed.

Lemma next_val_batch_empty w :
  next_val_batch [] [] w =
    (Raise StopIteration,
     mkWorld (w_model w) (w_rng w) (w_log w ++ [EValNext None; EValIter; EValNext None])).
Proof.
  cbv [next_val_batch try_except val_iter_next val_iter_new emit raise exn_eqb
       mbind M_bind mret M_ret bind ret w_model w_rng w_log].
  by rewrite <- !app_assoc.
Qed.

Lemma next_val_batch_spec val it w :
  val ≠ [] →
  ∃ b it' evs,
    cursor_draw val it = Some (b, it') ∧
    next_val_batch val it w =
      (Ok (b, it'), mkWorld (w_model w) (w_rng w) (w_log w ++ evs)) ∧
    Forall batch_event evs ∧ val_draws evs = [b].
Proof.
  intros Hval. destruct it as [|b it].
  - destruct val as [|b v]; [done|].
    exists b, v, [EValNext None; EValIter; EValNext (Some b)].
    split; [done|]. split; [apply next_val_batch_wrap|]. split; [|done].
    by repeat constructor.
  - exists b, it, [EValNext (Some b)].
    split; [done|]. split; [apply next_val_batch_cons|]. split; [|done].
    by repeat constructor.
Qed.

Lemma cursor_at_start val : cursor_at val 0 val.
Proof. exists 0%nat. split; [done|]. split; [lia|done]. Qed.

Lemma cursor_draw_at val c it b it' :
  val ≠ [] → cursor_at val c it → cursor_draw val it = Some (b, it') →
  val !! (c mod length val)%nat = Some b ∧ cursor_at val (S c) it'.
Proof.
  intros Hval (pos & -> & Hle & Hmod) Hd.
  assert (0 < length val)%nat as Hn by (destruct val; [done|simpl; lia]).
  destruct (drop pos val) as [|b0 it0] eqn:Edrop.
  - (* exhausted: the pass restarts *)
    assert (pos = length val) as ->.
    { apply (f_equal length) in Edrop. rewrite length_drop in Edrop. simpl in Edrop. lia. }
    rewrite Nat.Div0.mod_same in Hmod.
    destruct val as [|b1 v]; [done|]. injection Hd as <- <-.
    rewrite <- Hmod. split; [done|].
    exists 1%nat. split; [done|]. split; [simpl; lia|].
    replace (S c) with (1 + c)%nat by lia.
    rewrite <- (Nat.Div0.add_mod_idemp_r 1 c), <- Hmod, Nat.add_0_r. done.
  - simpl in Hd. injection Hd as <- <-.
    assert (pos < length val)%nat as Hlt.
    { apply (f_equal length) in Edrop. rewrite length_drop in Edrop. simpl in Edrop. lia. }
    rewrite Nat.mod_small in Hmod by done. rewrite <- Hmod.
    split.
    + rewrite <- (Nat.add_0_r pos), <- lookup_drop, Edrop. done.
    + exists (S pos). split.
      * rewrite <- (Nat.add_1_r pos). rewrite <- drop_drop, Edrop. done.
      * split; [lia|].
        replace (S pos) with (1 + pos)%nat by lia.
        replace (S c) with (1 + c)%nat by lia.
        by rewrite <- (Nat.Div0.add_mod_idemp_r 1 c), <- Hmod.
Qed.

Lemma py_last_snoc l a : py_last (l ++ [a]) = a.
Proof. unfold py_last. by rewrite last_snoc. Qed.

Lemma train_adv_batches_spec args nf thr train opt w :
  ∃ opt' w' evs,
    for_each train (train_adv_batch args nf thr) opt w = (Ok opt', w') ∧
    w_log w' = w_log w ++ evs ∧ Forall batch_event evs ∧
    param_groups opt' = param_groups opt.
Proof.
  destruct (for_each_inv
    (λ _ o w', ∃ evs, w_log w' = w_log w ++ evs ∧ Forall batch_event evs ∧
                      param_groups o = param_groups opt)
    train (train_adv_batch args nf thr)) with (s := opt) (w := w)
    as (opt' & w' & E & evs & Hlog & Hevs & Hg).
  - intros _ [d t] o w1 _ (evs & Hlog & Hevs & Hg).
    destruct (train_adv_batch_spec args nf thr d t o w1)
      as (o' & w2 & eps & m & lc & la & E & _ & Hlog2 & Hg2).
    exists o', w2. split; [done|].
    eexists. rewrite Hlog2, Hlog, <- app_assoc. split; [done|].
    split; [|congruence]. apply Forall_app. split; [done|apply step_log_batch].
  - exists []. by rewrite app_nil_r.
  - by exists opt', w', evs.
Qed.

Lemma train_adv_epoch_spec args train test nf thr epoch opt st w :
  ∃ opt' w' evs m1 m2 sd,
    let tr := (accuracy m1 train nf).2 in
    let te := (accuracy m2 test nf).2 in
    train_adv_epoch args train test nf thr epoch (opt, st) w =
      (Ok (opt', stats_after st tr te), w') ∧
    w_log w' = w_log w ++ evs ++
                 epoch_tail args train test nf epoch (best_test_acc st) tr te sd ∧
    Forall batch_event evs ∧
    param_groups opt' = param_groups opt.
Proof.
  destruct (train_adv_batches_spec args nf thr train opt w)
    as (opt' & w1 & evs & E & Hlog & Hevs & Hg).
  set (m1 := w_model w1). set (a1 := accuracy m1 train nf).
  set (a2 := accuracy a1.1 test nf).
  exists opt',
    (mkWorld a2.1 (w_rng w1)
       (w_log w1 ++ epoch_tail args train test nf epoch (best_test_acc st) a1.2 a2.2
                      (state_dict a2.1))),
    evs, m1, a1.1, (state_dict a2.1).
  cbn zeta. split; [|split; [|done]].
  - unfold train_adv_epoch. erewrite bind_ok by exact E.
    mrun. rewrite !py_last_snoc. unfold stats_after, epoch_tail.
    fold m1 a1 a2. cbn [best_test_acc train_accuracy test_accuracy].
    destruct (Rlt_dec (best_test_acc st) a2.2); mrun;
      simpl; rewrite <- !app_assoc; reflexivity.
  - simpl. by rewrite Hlog, <- !app_assoc.
Qed.

Lemma stats_ok_init : stats_ok (mkStats (-1) [] []).
Proof. split; [|by left]. intros a Ha. by apply elem_of_nil in Ha. Qed.

Lemma stats_after_ok st tr te : -1 < te → stats_ok st → stats_ok (stats_after st tr te).
Proof.
  intros Hte [Hub Hin]. unfold stats_after. split; simpl.
  - intros a Ha. apply elem_of_app in Ha as [Ha|Ha%list_elem_of_singleton].
    + specialize (Hub a Ha). destruct (Rlt_dec _ _); lra.
    + subst. destruct (Rlt_dec _ _); lra.
  - destruct (Rlt_dec _ _) as [Hlt|Hnlt].
    + right. apply elem_of_app. right. by apply list_elem_of_singleton.
    + destruct Hin as [Hin|Hin]; [lra|]. right. apply elem_of_app. by left.
Qed.

Lemma stats_after_mono st tr te :
  best_test_acc st <= best_test_acc (stats_after st tr te).
Proof. simpl. destruct (Rlt_dec _ _); lra. Qed.

Lemma new_best_iff st te :
  -1 < te → stats_ok st →
  best_test_acc st < te ↔ ∀ a, a ∈ test_accuracy st → a < te.
Proof.
  intros Hte [Hub Hin]. split.
  - intros Hlt a Ha. specialize (Hub a Ha). lra.
  - intros Hall. destruct Hin as [->|Hin]; [done|by apply Hall].
Qed.

Lemma train_adv_epochs_from args train test nf thr s n opt st w :
  ∃ opt' st' w' evs,
    for_each (seq s n) (train_adv_epoch args train test nf thr) (opt, st) w =
      (Ok (opt', st'), w') ∧
    w_log w' = w_log w ++ evs ∧
    length (train_accuracy st') = (length (train_accuracy st) + n)%nat ∧
    length (test_accuracy st') = (length (test_accuracy st) + n)%nat ∧
    (accuracy_in_unit_interval → stats_ok st → stats_ok st').
Proof.
  destruct (for_each_inv
    (λ i loc w', ∃ evs, w_log w' = w_log w ++ evs ∧
       length (train_accuracy loc.2) = (length (train_accuracy st) + i)%nat ∧
       length (test_accuracy loc.2) = (length (test_accuracy st) + i)%nat ∧
       (accuracy_in_unit_interval → stats_ok st → stats_ok loc.2))
    (seq s n) (train_adv_epoch args train test nf thr)) with (s := (opt, st)) (w := w)
    as ([opt' st'] & w' & E & evs & Hlog & Htr & Hte & Hok).
  - intros i epoch [o st1] w1 _ (evs & Hlog & Htr & Hte & Hok).
    destruct (train_adv_epoch_spec args train test nf thr epoch o st1 w1)
      as (o' & w2 & evs2 & m1 & m2 & sd & E & Hlog2 & _ & _).
    cbn zeta in E, Hlog2. simpl in Htr, Hte, Hok.
    eexists _, w2. split; [exact E|].
    eexists. rewrite Hlog2, Hlog, <- app_assoc. split; [done|].
    simpl. rewrite !length_app, Htr, Hte. simpl.
    split; [lia|]. split; [lia|].
    intros Hacc Hst. apply stats_after_ok; [|by apply Hok].
    destruct (Hacc m2 test nf). lra.
  - exists []. rewrite app_nil_r. simpl. split; [done|]. split; [lia|]. split; [lia|done].
  - rewrite length_seq in *. by exists opt', st', w', evs.
Qed.

Lemma meta_train_batch_spec args val nf thr d t loc w :
  val ≠ [] →
  ∃ loc' w' evs b,
    meta_train_batch args val nf thr (d, t) loc w = (Ok loc', w') ∧
    w_log w' = w_log w ++ evs ∧ Forall batch_event evs ∧
    val_draws evs = [b] ∧
    cursor_draw val (val_iter loc) = Some (b, val_iter loc') ∧
    same_bookkeeping loc loc'.
Proof.
  intros Hval.
  destruct (meta_inner_step_spec args nf thr d t (optim_inner loc) w)
    as (oi & w1 & eps1 & m1 & lc1 & la1 & E1 & _ & Hlog1 & Hg1).
  destruct (next_val_batch_spec val (val_iter loc) w1 Hval)
    as ([d' t'] & it' & evs2 & Hdraw & E2 & Hevs2 & Hdraws2).
  set (w2 := mkWorld (w_model w1) (w_rng w1) (w_log w1 ++ evs2)) in E2.
  destruct (meta_outer_step_spec args nf thr d' t' (optim_outer loc) w2)
    as (oo & w3 & eps3 & m3 & lc3 & la3 & E3 & _ & Hlog3 & Hg3).
  eexists _, w3, _, (d', t'). split.
  { unfold meta_train_batch. erewrite bind_ok by exact E1. cbn beta.
    erewrite bind_ok by exact E2. cbn beta iota.
    erewrite bind_ok by exact E3. reflexivity. }
  split.
  { rewrite Hlog3. unfold w2. simpl. rewrite Hlog1, <- !app_assoc. reflexivity. }
  split.
  { repeat (apply Forall_app; split); try done; apply step_log_batch. }
  split.
  { by rewrite !val_draws_app, !val_draws_step_log, Hdraws2. }
  done.
Qed.

(** The outer step on an empty validation source: the pass is restarted
    once, the second exhaustion is not caught. *)
Lemma meta_train_batch_empty args nf thr d t loc w :
  val_iter loc = [] →
  ∃ w' eps x_adv loss,
    meta_train_batch args [] nf thr (d, t) loc w = (Raise StopIteration, w') ∧
    w_log w' = w_log w ++ step_log nf d t eps x_adv loss ++
                 [EValNext None; EValIter; EValNext None].
Proof.
  intros Hit.
  destruct (meta_inner_step_spec args nf thr d t (optim_inner loc) w)
    as (oi & w1 & eps1 & m1 & lc1 & la1 & E1 & _ & Hlog1 & Hg1).
  eexists _, eps1, _, _. split.
  { unfold meta_train_batch. erewrite bind_ok by exact E1. cbn beta.
    erewrite bind_raise; [reflexivity|]. rewrite Hit. apply next_val_batch_empty. }
  simpl. by rewrite Hlog1, <- app_assoc.
Qed.

(** The loop over training batches, when no draw can fail. *)
Lemma meta_train_batches_spec args train val nf thr c loc w :
  val ≠ [] ∨ train = [] →
  ∃ loc' w' evs,
    for_each train (meta_train_batch args val nf thr) loc w = (Ok loc', w') ∧
    w_log w' = w_log w ++ evs ∧ Forall batch_event evs ∧
    same_bookkeeping loc loc' ∧
    (val ≠ [] → cursor_at val c (val_iter loc) →
       cursor_at val (c + length train) (val_iter loc') ∧
       length (val_draws evs) = length train ∧
       ∀ j, (j < length train)%nat →
            val_draws evs !! j = val !! ((c + j) mod length val)%nat).
Proof.
  intros Hcond.
  destruct (for_each_inv
    (λ i loc' w', ∃ evs, w_log w' = w_log w ++ evs ∧ Forall batch_event evs ∧
       same_bookkeeping loc loc' ∧
       (val ≠ [] → cursor_at val c (val_iter loc) →
          cursor_at val (c + i) (val_iter loc') ∧
          length (val_draws evs) = i ∧
          ∀ j, (j < i)%nat → val_draws evs !! j = val !! ((c + j) mod length val)%nat))
    train (meta_train_batch args val nf thr)) with (s := loc) (w := w)
    as (loc' & w' & E & evs & Hlog & Hevs & Hsame & Hcur).
  - intros i [d t] loc1 w1 Hi (evs & Hlog & Hevs & Hsame & Hcur).
    assert (val ≠ []) as Hval.
    { destruct Hcond as [Hv|Ht]; [done|]. subst train. by rewrite lookup_nil in Hi. }
    destruct (meta_train_batch_spec args val nf thr d t loc1 w1 Hval)
      as (loc2 & w2 & evs2 & b & E & Hlog2 & Hevs2 & Hdraws & Hdraw & Hsame2).
    exists loc2, w2. split; [done|]. exists (evs ++ evs2).
    split; [by rewrite Hlog2, Hlog, <- app_assoc|].
    split; [by apply Forall_app|].
    split.
    { destruct Hsame as (? & ? & ? & ? & ?), Hsame2 as (? & ? & ? & ? & ?).
      repeat split; congruence. }
    intros _ Hat. destruct (Hcur Hval Hat) as (Hat1 & Hlen & Hnth).
    destruct (cursor_draw_at val (c + i) _ _ _ Hval Hat1 Hdraw) as [Hb Hat2].
    split; [by rewrite Nat.add_succ_r|].
    rewrite val_draws_app, Hdraws, length_app, Hlen. split; [simpl; lia|].
    intros j Hj. destruct (decide (j = i)) as [->|Hne].
    + rewrite lookup_app_r by lia. rewrite Hlen, Nat.sub_diag. simpl. by rewrite Hb.
    + rewrite lookup_app_l by lia. apply Hnth. lia.
  - exists []. rewrite app_nil_r. split; [done|]. split; [done|]. split; [done|].
    intros _ Hat. rewrite Nat.add_0_r. split; [done|]. split; [done|]. intros j Hj. lia.
  - by exists loc', w', evs.
Qed.

Lemma meta_train_epoch_spec args train val test nf thr c epoch loc w :
  val ≠ [] ∨ train = [] →
  ∃ loc' w' evs m1 m2 sd bv rt,
    let tr := (accuracy m1 train nf).2 in
    let te := (accuracy m2 test nf).2 in
    meta_train_epoch args train val test nf thr epoch loc w = (Ok loc', w') ∧
    stats loc' = stats_after (stats loc) tr te ∧
    b_hist loc' = b_hist loc ++ [bv] ∧
    reg_term_hist loc' = reg_term_hist loc ++ [rt] ∧
    param_groups (optim_inner loc') = param_groups (optim_inner loc) ∧
    param_groups (optim_outer loc') = param_groups (optim_outer loc) ∧
    w_log w' = w_log w ++ evs ++
                 epoch_tail args train test nf epoch (best_test_acc (stats loc)) tr te sd ∧
    Forall batch_event evs ∧
    (val ≠ [] → cursor_at val c (val_iter loc) →
       cursor_at val (c + length train) (val_iter loc') ∧
       length (val_draws evs) = length train ∧
       ∀ j, (j < length train)%nat →
            val_draws evs !! j = val !! ((c + j) mod length val)%nat).
Proof.
  intros Hcond.
  destruct (meta_train_batches_spec args train val nf thr c loc w Hcond)
    as (loc1 & w1 & evs & E & Hlog & Hevs & (Hst & Hb & Hr & Hgi & Hgo) & Hcur).
  set (m1 := w_model w1). set (a1 := accuracy m1 train nf).
  set (a2 := accuracy a1.1 test nf).
  exists (mkMetaLocals (optim_inner loc1) (optim_outer loc1)
            (stats_after (stats loc1) a1.2 a2.2)
            (b_hist loc1 ++ [get_b_vector a2.1])
            (reg_term_hist loc1 ++ [get_reg_term a2.1]) (val_iter loc1)),
    (mkWorld a2.1 (w_rng w1)
       (w_log w1 ++ epoch_tail args train test nf epoch (best_test_acc (stats loc1))
                      a1.2 a2.2 (state_dict a2.1))),
    evs, m1, a1.1, (state_dict a2.1), (get_b_vector a2.1), (get_reg_term a2.1).
  cbn zeta. fold a1 a2. split.
  - unfold meta_train_epoch. erewrite bind_ok by exact E.
    mrun. rewrite !py_last_snoc. unfold stats_after, epoch_tail.
    fold m1 a1 a2. cbn [best_test_acc train_accuracy test_accuracy].
    destruct (Rlt_dec (best_test_acc (stats loc1)) a2.2); mrun;
      simpl; rewrite <- !app_assoc; reflexivity.
  - simpl. by rewrite Hst, Hb, Hr, Hlog, <- app_assoc.
Qed.

Lemma val_draws_epoch_tail args train test nf epoch best tr te sd :
  val_draws (epoch_tail args train test nf epoch best tr te sd) = [].
Proof. unfold epoch_tail. by destruct (Rlt_dec best te). Qed.

Lemma meta_train_epochs_from args train val test nf thr s n c loc w :
  val ≠ [] ∨ train = [] →
  ∃ loc' w' evs,
    for_each (seq s n) (meta_train_epoch args train val test nf thr) loc w =
      (Ok loc', w') ∧
    w_log w' = w_log w ++ evs ∧
    length (train_accuracy (stats loc')) = (length (train_accuracy (stats loc)) + n)%nat ∧
    length (test_accuracy (stats loc')) = (length (test_accuracy (stats loc)) + n)%nat ∧
    length (b_hist loc') = (length (b_hist loc) + n)%nat ∧
    length (reg_term_hist loc') = (length (reg_term_hist loc) + n)%nat ∧
    (accuracy_in_unit_interval → stats_ok (stats loc) → stats_ok (stats loc')) ∧
    param_groups (optim_inner loc') = param_groups (optim_inner loc) ∧
    param_groups (optim_outer loc') = param_groups (optim_outer loc) ∧
    (val ≠ [] → cursor_at val c (val_iter loc) →
       cursor_at val (c + n * length train) (val_iter loc') ∧
       length (val_draws evs) = (n * length train)%nat ∧
       ∀ j, (j < n * length train)%nat →
            val_draws evs !! j = val !! ((c + j) mod length val)%nat).
Proof.
  intros Hcond.
  destruct (for_each_inv
    (λ i loc' w', ∃ evs, w_log w' = w_log w ++ evs ∧
       length (train_accuracy (stats loc')) = (length (train_accuracy (stats loc)) + i)%nat ∧
       length (test_accuracy (stats loc')) = (length (test_accuracy (stats loc)) + i)%nat ∧
       length (b_hist loc') = (length (b_hist loc) + i)%nat ∧
       length (reg_term_hist loc') = (length (reg_term_hist loc) + i)%nat ∧
       (accuracy_in_unit_interval → stats_ok (stats loc) → stats_ok (stats loc')) ∧
       param_groups (optim_inner loc') = param_groups (optim_inner loc) ∧
       param_groups (optim_outer loc') = param_groups (optim_outer loc) ∧
       (val ≠ [] → cursor_at val c (val_iter loc) →
          cursor_at val (c + i * length train) (val_iter loc') ∧
          length (val_draws evs) = (i * length train)%nat ∧
          ∀ j, (j < i * length train)%nat →
               val_draws evs !! j = val !! ((c + j) mod length val)%nat))
    (seq s n) (meta_train_epoch args train val test nf thr)) with (s := loc) (w := w)
    as (loc' & w' & E & evs & Hinv).
  - intros i epoch loc1 w1 _
      (evs & Hlog & Htr & Hte & Hbh & Hrh & Hok & Hgi & Hgo & Hcur).
    destruct (meta_train_epoch_spec args train val test nf thr
                (c + i * length train) epoch loc1 w1 Hcond)
      as (loc2 & w2 & evs2 & m1 & m2 & sd & bv & rt & E & Hst2 & Hb2 & Hr2 & Hgi2 &
          Hgo2 & Hlog2 & Hevs2 & Hcur2).
    cbn zeta in E, Hst2, Hlog2. exists loc2, w2. split; [exact E|].
    eexists. rewrite Hlog2, Hlog, <- app_assoc. split; [reflexivity|].
    rewrite Hst2, Hb2, Hr2. simpl. rewrite !length_app, Htr, Hte, Hbh, Hrh. simpl.
    repeat (split; [lia || congruence|]).
    split.
    { intros Hacc Hst. apply stats_after_ok; [|by apply Hok].
      destruct (Hacc m2 test nf). lra. }
    split; [congruence|]. split; [congruence|].
    intros Hval Hat. destruct (Hcur Hval Hat) as (Hat1 & Hlen & Hnth).
    destruct (Hcur2 Hval Hat1) as (Hat2 & Hlen2 & Hnth2).
    rewrite !val_draws_app, val_draws_epoch_tail, app_nil_r, length_app, Hlen, Hlen2.
    split.
    { by replace (c + (length train + i * length train))%nat
        with (c + i * length train + length train)%nat by lia. }
    split; [lia|].
    intros j Hj. destruct (decide (j < i * length train)%nat) as [Hlt|Hge].
    + rewrite lookup_app_l by lia. by apply Hnth.
    + rewrite lookup_app_r by lia. rewrite Hlen, Hnth2 by lia.
      do 2 f_equal. lia.
  - exists []. rewrite app_nil_r. simpl. rewrite !Nat.add_0_r.
    do 8 (split; [done|]). intros _ Hat. split; [done|]. split; [done|].
    intros j Hj. lia.
  - rewrite length_seq in Hinv. by exists loc', w', evs.
Qed.

Lemma entropy_threshold_run args w :
  0 < var_threshold args → entropy_threshold args w = (Ok (threshold_of args), w).
Proof.
  intros Hv. unfold entropy_threshold, math_log. munfold.
  by destruct (Rlt_dec 0 (var_threshold args)).
Qed.

Lemma entropy_threshold_raise args w :
  ¬ 0 < var_threshold args → entropy_threshold args w = (Raise ValueError, w).
Proof.
  intros Hv. unfold entropy_threshold, math_log. munfold.
  by destruct (Rlt_dec 0 (var_threshold args)).
Qed.

Lemma train_adv_run train test args w opt st w1 :
  0 < var_threshold args →
  train_adv_epochs args train test (threshold_of args) (Z.to_nat (num_epochs args))
    (train_adv_init args (w_model w)) w = (Ok (opt, st), w1) →
  train_adv train test args w =
    (Ok tt, mkWorld (w_model w1) (w_rng w1) (w_log w1 ++ final_saves args st)).
Proof.
  intros Hv E. unfold train_adv. mrun.
  rewrite (entropy_threshold_run args w Hv), E. simpl.
  by rewrite <- app_assoc.
Qed.

Lemma meta_train_adv_run train val test args w loc w1 :
  0 < var_threshold args →
  meta_train_epochs args train val test (threshold_of args) (Z.to_nat (num_epochs args))
    (meta_train_init args (w_model w) val) (after_iter w) = (Ok loc, w1) →
  meta_train_adv train val test args w =
    (Ok tt, mkWorld (w_model w1) (w_rng w1) (w_log w1 ++ meta_final_saves args loc)).
Proof.
  intros Hv E. unfold meta_train_adv, val_iter_new. mrun.
  rewrite (entropy_threshold_run args w Hv). fold (after_iter w). rewrite E. simpl.
  by rewrite <- !app_assoc.
Qed.

Lemma meta_train_adv_raise train val test args w e w1 :
  0 < var_threshold args →
  meta_train_epochs args train val test (threshold_of args) (Z.to_nat (num_epochs args))
    (meta_train_init args (w_model w) val) (after_iter w) = (Raise e, w1) →
  meta_train_adv train val test args w = (Raise e, w1).
Proof.
  intros Hv E. unfold meta_train_adv, val_iter_new. mrun.
  rewrite (entropy_threshold_run args w Hv). fold (after_iter w). by rewrite E.
Qed.

(** ** Passes: the exact events of the three pipelines and of the loops *)

Lemma pass_with_loss_batch nf loss_of b seg :
  pass_with_loss nf loss_of b seg → Forall batch_event seg.
Proof. intros (m & opt & eps & ->). by repeat constructor. Qed.


Lemma pass_with_loss_normalized nf loss_of b seg :
  pass_with_loss nf loss_of b seg → normalized_pass nf b seg.
Proof. intros (m & opt & eps & ->). by eexists m, eps, _. Qed.

Ltac pipeline_pass E m opt eps :=
  erewrite bind_ok by exact E;
  mrun;
  eexists _, _, _;
  split; [reflexivity|];
  split; [simpl; rewrite <- !app_assoc; reflexivity|];
  exists m, opt, eps; reflexivity.

Lemma train_adv_batch_pass args nf thr d t opt w :
  ∃ opt' w' seg,
    train_adv_batch args nf thr (d, t) opt w = (Ok opt', w') ∧
    w_log w' = w_log w ++ seg ∧
    pass_with_loss nf (train_loss_at args thr) (d, t) seg.
Proof.
  destruct (perturb_spec args d t w) as (eps & g & _ & E).
  unfold train_adv_batch. pipeline_pass E (w_model w) opt eps.
Qed.

Lemma meta_inner_step_pass args nf thr d t opt w :
  ∃ opt' w' seg,
    meta_inner_step args nf thr (d, t) opt w = (Ok opt', w') ∧
    w_log w' = w_log w ++ seg ∧
    pass_with_loss nf
      (λ b p, inner_loss args thr (pass_model p) (pass_logits_clean p)
                (pass_logits_adv p) b.2) (d, t) seg.
Proof.
  destruct (perturb_spec args d t w) as (eps & g & _ & E).
  unfold meta_inner_step. pipeline_pass E (w_model w) opt eps.
Qed.

Lemma meta_outer_step_pass args nf thr d t opt w :
  ∃ opt' w' seg,
    meta_outer_step args nf thr (d, t) opt w = (Ok opt', w') ∧
    w_log w' = w_log w ++ seg ∧
    pass_with_loss nf
      (λ b p, outer_loss args thr (pass_model p) (pass_logits_clean p)
                (pass_logits_adv p) b.2) (d, t) seg.
Proof.
  destruct (perturb_spec args d t w) as (eps & g & _ & E).
  unfold meta_outer_step. pipeline_pass E (w_model w) opt eps.
Qed.


Lemma inner_loss_at args thr b p :
  inner_loss args thr (pass_model p) (pass_logits_clean p) (pass_logits_adv p) b.2 =
    meta_loss_at args thr b p.
Proof. reflexivity. Qed.

Lemma outer_loss_at args thr b p :
  outer_loss args thr (pass_model p) (pass_logits_clean p) (pass_logits_adv p) b.2 =
    meta_loss_at args thr b p.
Proof. reflexivity. Qed.

Lemma train_batches_log_impl (Q Q' : Batch → list event → Prop) train evs :
  (∀ b seg, Q b seg → Q' b seg) →
  train_batches_log Q train evs → train_batches_log Q' train evs.
Proof.
  intros HQ (segs & -> & Hsegs). exists segs. split; [done|].
  eapply Forall2_impl; [exact Hsegs|]. exact HQ.
Qed.

Lemma meta_batch_log_impl (Qi Qi' Qo Qo' : Batch → list event → Prop) b seg :
  (∀ b seg, Qi b seg → Qi' b seg) → (∀ b seg, Qo b seg → Qo' b seg) →
  meta_batch_log Qi Qo b seg → meta_batch_log Qi' Qo' b seg.
Proof.
  intros Hi Ho (si & b' & so & Hsi & Hso & Hseg). exists si, b', so. auto.
Qed.

Lemma rounds_log_impl (P P' : list event → Prop) args train test nf s st L st' n :
  (∀ evs, P evs → P' evs) →
  rounds_log P args train test nf s st L st' n →
  rounds_log P' args train test nf s st L st' n.
Proof. intros HP. induction 1; constructor; auto. Qed.

Lemma accuracy_calls_app l1 l2 :
  accuracy_calls (l1 ++ l2) = accuracy_calls l1 ++ accuracy_calls l2.
Proof. apply omap_app. Qed.

Lemma accuracy_calls_batch evs : Forall batch_event evs → accuracy_calls evs = [].
Proof.
  induction 1 as [|e evs He _ IH]; [done|].
  destruct e; try done; simpl in *; apply IH.
Qed.

Lemma accuracy_calls_epoch_tail args train test nf epoch best tr te sd :
  accuracy_calls (epoch_tail args train test nf epoch best tr te sd) =
    [(train, nf); (test, nf)].
Proof. unfold epoch_tail. by destruct (Rlt_dec best te). Qed.

Lemma rounds_accuracy_calls (P : list event → Prop) args train test nf s st L st' n :
  rounds_log P args train test nf s st L st' n →
  accuracy_calls L = concat (replicate n [(train, nf); (test, nf)]).
Proof.
  induction 1 as [|s st evs tr te sd rest st' n _ Hevs _ IH]; [done|].
  rewrite !accuracy_calls_app, accuracy_calls_batch, accuracy_calls_epoch_tail, IH; done.
Qed.

(** A loop each of whose rounds appends one segment to the log. *)
Lemma for_each_segments {A St} (Q : A → list event → Prop) (l : list A)
    (body : A → St → M St) :
  (∀ x s w, x ∈ l →
     ∃ s' w' seg, body x s w = (Ok s', w') ∧ w_log w' = w_log w ++ seg ∧ Q x seg) →
  ∀ s w, ∃ s' w' segs,
    for_each l body s w = (Ok s', w') ∧ w_log w' = w_log w ++ concat segs ∧
    Forall2 Q l segs.
Proof.
  induction l as [|x l IH]; intros Hbody s w.
  - exists s, w, []. by rewrite app_nil_r.
  - destruct (Hbody x s w) as (s1 & w1 & seg & E1 & Hlog1 & HQ); [by left|].
    destruct (IH (λ y s w Hy, Hbody y s w (list_elem_of_further _ _ _ Hy)) s1 w1)
      as (s2 & w2 & segs & E2 & Hlog2 & Hsegs).
    exists s2, w2, (seg :: segs). split.
    { simpl. by erewrite bind_ok. }
    split; [|by constructor].
    simpl. by rewrite Hlog2, Hlog1, <- app_assoc.
Qed.

Lemma train_batches_log_batch (Q : Batch → list event → Prop) train evs :
  (∀ b seg, Q b seg → Forall batch_event seg) →
  train_batches_log Q train evs → Forall batch_event evs.
Proof.
  intros HQ (segs & -> & Hsegs). apply Forall_concat.
  induction Hsegs; constructor; eauto.
Qed.

Lemma meta_batch_log_batch (Qi Qo : Batch → list event → Prop) b seg :
  (∀ b seg, Qi b seg → Forall batch_event seg) →
  (∀ b seg, Qo b seg → Forall batch_event seg) →
  meta_batch_log Qi Qo b seg → Forall batch_event seg.
Proof.
  intros Hi Ho (si & b' & so & Hsi & Hso & [-> | ->]);
    repeat (apply Forall_app; split); eauto; by repeat constructor.
Qed.

(** *** [train_adv] *)

Lemma train_adv_batches_pass args nf thr train opt w :
  ∃ opt' w' evs,
    for_each train (train_adv_batch args nf thr) opt w = (Ok opt', w') ∧
    w_log w' = w_log w ++ evs ∧ Forall batch_event evs ∧
    train_batches_log (pass_with_loss nf (train_loss_at args thr)) train evs.
Proof.
  destruct (for_each_segments (pass_with_loss nf (train_loss_at args thr)) train
              (train_adv_batch args nf thr)) with (s := opt) (w := w)
    as (opt' & w' & segs & E & Hlog & Hsegs).
  { intros [d t] o w1 _. apply train_adv_batch_pass. }
  exists opt', w', (concat segs). split; [done|]. split; [done|].
  assert (train_batches_log (pass_with_loss nf (train_loss_at args thr)) train
            (concat segs)) as Hl by (by exists segs).
  split; [|done]. eapply train_batches_log_batch; [|exact Hl].
  intros b seg. apply pass_with_loss_batch.
Qed.

Lemma train_adv_epoch_after args train test nf thr epoch opt st w opt' w1 :
  for_each train (train_adv_batch args nf thr) opt w = (Ok opt', w1) →
  ∃ w' tr te sd,
    train_adv_epoch args train test nf thr epoch (opt, st) w =
      (Ok (opt', stats_after st tr te), w') ∧
    w_log w' = w_log w1 ++
                 epoch_tail args train test nf epoch (best_test_acc st) tr te sd.
Proof.
  intros E.
  set (m1 := w_model w1). set (a1 := accuracy m1 train nf).
  set (a2 := accuracy a1.1 test nf).
  exists (mkWorld a2.1 (w_rng w1)
            (w_log w1 ++ epoch_tail args train test nf epoch (best_test_acc st) a1.2 a2.2
                           (state_dict a2.1))),
    a1.2, a2.2, (state_dict a2.1).
  split; [|done].
  unfold train_adv_epoch. erewrite bind_ok by exact E.
  mrun. rewrite !py_last_snoc. unfold stats_after, epoch_tail.
  fold m1 a1 a2. cbn [best_test_acc train_accuracy test_accuracy].
  destruct (Rlt_dec (best_test_acc st) a2.2); mrun;
    simpl; rewrite <- !app_assoc; reflexivity.
Qed.

Lemma train_adv_epochs_rounds (P : list event → Prop) args train test nf thr :
  (∀ opt w, ∃ opt' w' evs,
     for_each train (train_adv_batch args nf thr) opt w = (Ok opt', w') ∧
     w_log w' = w_log w ++ evs ∧ Forall batch_event evs ∧ P evs) →
  ∀ n s opt st w, ∃ opt' st' w' L,
    for_each (seq s n) (train_adv_epoch args train test nf thr) (opt, st) w =
      (Ok (opt', st'), w') ∧
    w_log w' = w_log w ++ L ∧
    rounds_log P args train test nf s st L st' n.
Proof.
  intros Hbatches. induction n as [|n IH]; intros s opt st w.
  - exists opt, st, w, []. rewrite app_nil_r. split; [done|]. split; [done|constructor].
  - destruct (Hbatches opt w) as (opt1 & w1 & evs & E1 & Hlog1 & Hevs & HP).
    destruct (train_adv_epoch_after args train test nf thr s opt st w opt1 w1 E1)
      as (w2 & tr & te & sd & E2 & Hlog2).
    destruct (IH (S s) opt1 (stats_after st tr te) w2)
      as (opt3 & st3 & w3 & L & E3 & Hlog3 & HL).
    exists opt3, st3, w3,
      (evs ++ epoch_tail args train test nf s (best_test_acc st) tr te sd ++ L).
    split.
    { simpl. erewrite bind_ok by exact E2. exact E3. }
    split; [by rewrite Hlog3, Hlog2, Hlog1, <- !app_assoc|].
    by constructor.
Qed.

(** The whole run of [train_adv]: every epoch passes once through the
    training batches, in order, and each pass hands [backward] the loss
    [train_loss] of the values it computed, with the threshold of the run. *)
Lemma train_adv_passes args train test w :
  0 < var_threshold args →
  ∃ st w' L,
    train_adv train test args w = (Ok tt, w') ∧
    w_log w' = w_log w ++ L ++ final_saves args st ∧
    rounds_log
      (train_batches_log
         (pass_with_loss (select_norm args) (train_loss_at args (threshold_of args)))
         train)
      args train test (select_norm args) 0 (mkStats (-1) [] []) L st
      (Z.to_nat (num_epochs args)).
Proof.
  intros Hv.
  destruct (train_adv_epochs_rounds
              (train_batches_log
                 (pass_with_loss (select_norm args)
                    (train_loss_at args (threshold_of args))) train)
              args train test (select_norm args) (threshold_of args)
              (train_adv_batches_pass args _ _ train)
              (Z.to_nat (num_epochs args)) 0%nat (train_adv_init args (w_model w)).1
              (train_adv_init args (w_model w)).2 w)
    as (opt & st & w1 & L & E & Hlog & HL).
  exists st, (mkWorld (w_model w1) (w_rng w1) (w_log w1 ++ final_saves args st)), L.
  split; [by apply (train_adv_run _ _ _ _ opt)|].
  split; [|done]. simpl. by rewrite Hlog, <- app_assoc.
Qed.

(** *** [meta_train_adv] *)

Lemma meta_train_batch_pass args val nf thr d t loc w :
  val ≠ [] →
  ∃ loc' w' seg,
    meta_train_batch args val nf thr (d, t) loc w = (Ok loc', w') ∧
    w_log w' = w_log w ++ seg ∧
    meta_batch_log (pass_with_loss nf (meta_loss_at args thr))
      (pass_with_loss nf (meta_loss_at args thr)) (d, t) seg.
Proof.
  intros Hval.
  destruct (meta_inner_step_pass args nf thr d t (optim_inner loc) w)
    as (oi & w1 & si & E1 & Hlog1 & Hsi).
  assert (∃ b it' draw,
            next_val_batch val (val_iter loc) w1 =
              (Ok (b, it'), mkWorld (w_model w1) (w_rng w1) (w_log w1 ++ draw)) ∧
            (draw = [EValNext (Some b)] ∨
             draw = [EValNext None; EValIter; EValNext (Some b)]))
    as (b' & it' & draw & E2 & Hdraw).
  { destruct (val_iter loc) as [|b0 it0].
    - destruct val as [|b1 v]; [done|].
      eexists b1, v, _. split; [apply next_val_batch_wrap|by right].
    - eexists b0, it0, _. split; [apply next_val_batch_cons|by left]. }
  set (w2 := mkWorld (w_model w1) (w_rng w1) (w_log w1 ++ draw)) in E2.
  destruct b' as [d' t'].
  destruct (meta_outer_step_pass args nf thr d' t' (optim_outer loc) w2)
    as (oo & w3 & so & E3 & Hlog3 & Hso).
  eexists _, w3, (si ++ draw ++ so). split.
  { unfold meta_train_batch. erewrite bind_ok by exact E1. cbn beta.
    erewrite bind_ok by exact E2. cbn beta iota.
    erewrite bind_ok by exact E3. reflexivity. }
  split.
  { rewrite Hlog3. unfold w2. simpl. by rewrite Hlog1, <- !app_assoc. }
  exists si, (d', t'), so. split; [exact Hsi|]. split; [exact Hso|].
  destruct Hdraw as [-> | ->]; [by left|by right].
Qed.

Lemma meta_train_batches_pass args train val nf thr loc w :
  val ≠ [] ∨ train = [] →
  ∃ loc' w' evs,
    for_each train (meta_train_batch args val nf thr) loc w = (Ok loc', w') ∧
    w_log w' = w_log w ++ evs ∧ Forall batch_event evs ∧
    train_batches_log
      (meta_batch_log (pass_with_loss nf (meta_loss_at args thr))
         (pass_with_loss nf (meta_loss_at args thr))) train evs ∧
    stats loc' = stats loc ∧ b_hist loc' = b_hist loc ∧
    reg_term_hist loc' = reg_term_hist loc.
Proof.
  intros Hcond.
  destruct (for_each_segments
              (meta_batch_log (pass_with_loss nf (meta_loss_at args thr))
                 (pass_with_loss nf (meta_loss_at args thr))) train
              (meta_train_batch args val nf thr)) with (s := loc) (w := w)
    as (loc' & w' & segs & E & Hlog & Hsegs).
  { intros [d t] loc1 w1 Hin. apply meta_train_batch_pass.
    destruct Hcond as [Hv | ->]; [done|]. by apply elem_of_nil in Hin. }
  destruct (meta_train_batches_spec args train val nf thr 0 loc w Hcond)
    as (loc2 & w2 & evs2 & E' & _ & _ & (Hst & Hb & Hr & _ & _) & _).
  rewrite E in E'. injection E' as <- <-.
  exists loc', w', (concat segs). split; [done|]. split; [done|].
  assert (train_batches_log
            (meta_batch_log (pass_with_loss nf (meta_loss_at args thr))
               (pass_with_loss nf (meta_loss_at args thr))) train (concat segs))
    as Hl by (by exists segs).
  split; [|done]. eapply train_batches_log_batch; [|exact Hl].
  intros b seg. apply meta_batch_log_batch; intros b0 seg0; apply pass_with_loss_batch.
Qed.

Lemma meta_train_epoch_after args train val test nf thr epoch loc w loc1 w1 :
  for_each train (meta_train_batch args val nf thr) loc w = (Ok loc1, w1) →
  ∃ loc' w' tr te sd bv rt,
    meta_train_epoch args train val test nf thr epoch loc w = (Ok loc', w') ∧
    stats loc' = stats_after (stats loc1) tr te ∧
    b_hist loc' = b_hist loc1 ++ [bv] ∧
    reg_term_hist loc' = reg_term_hist loc1 ++ [rt] ∧
    w_log w' = w_log w1 ++
                 epoch_tail args train test nf epoch (best_test_acc (stats loc1))
                   tr te sd.
Proof.
  intros E.
  set (m1 := w_model w1). set (a1 := accuracy m1 train nf).
  set (a2 := accuracy a1.1 test nf).
  exists (mkMetaLocals (optim_inner loc1) (optim_outer loc1)
            (stats_after (stats loc1) a1.2 a2.2)
            (b_hist loc1 ++ [get_b_vector a2.1])
            (reg_term_hist loc1 ++ [get_reg_term a2.1]) (val_iter loc1)),
    (mkWorld a2.1 (w_rng w1)
       (w_log w1 ++ epoch_tail args train test nf epoch (best_test_acc (stats loc1))
                      a1.2 a2.2 (state_dict a2.1))),
    a1.2, a2.2, (state_dict a2.1), (get_b_vector a2.1), (get_reg_term a2.1).
  split; [|done].
  unfold meta_train_epoch. erewrite bind_ok by exact E.
  mrun. rewrite !py_last_snoc. unfold stats_after, epoch_tail.
  fold m1 a1 a2. cbn [best_test_acc train_accuracy test_accuracy].
  destruct (Rlt_dec (best_test_acc (stats loc1)) a2.2); mrun;
    simpl; rewrite <- !app_assoc; reflexivity.
Qed.

Lemma meta_train_epochs_rounds (P : list event → Prop) args train val test nf thr :
  (∀ loc w, ∃ loc' w' evs,
     for_each train (meta_train_batch args val nf thr) loc w = (Ok loc', w') ∧
     w_log w' = w_log w ++ evs ∧ Forall batch_event evs ∧ P evs ∧
     stats loc' = stats loc ∧ b_hist loc' = b_hist loc ∧
     reg_term_hist loc' = reg_term_hist loc) →
  ∀ n s loc w, ∃ loc' w' L,
    for_each (seq s n) (meta_train_epoch args train val test nf thr) loc w =
      (Ok loc', w') ∧
    w_log w' = w_log w ++ L ∧
    rounds_log P args train test nf s (stats loc) L (stats loc') n.
Proof.
  intros Hbatches. induction n as [|n IH]; intros s loc w.
  - exists loc, w, []. rewrite app_nil_r. split; [done|]. split; [done|constructor].
  - destruct (Hbatches loc w) as (loc1 & w1 & evs & E1 & Hlog1 & Hevs & HP & Hst & _).
    destruct (meta_train_epoch_after args train val test nf thr s loc w loc1 w1 E1)
      as (loc2 & w2 & tr & te & sd & bv & rt & E2 & Hst2 & _ & _ & Hlog2).
    destruct (IH (S s) loc2 w2) as (loc3 & w3 & L & E3 & Hlog3 & HL).
    exists loc3, w3,
      (evs ++ epoch_tail args train test nf s (best_test_acc (stats loc)) tr te sd ++ L).
    split.
    { simpl. erewrite bind_ok by exact E2. exact E3. }
    split; [by rewrite Hlog3, Hlog2, Hlog1, Hst, <- !app_assoc|].
    constructor; [done|done|]. by rewrite <- Hst, <- Hst2.
Qed.

(** The whole run of [meta_train_adv] when no draw can fail: every epoch
    passes once through the training batches, in order; each batch is an
    inner pass on it, one validation batch drawn, and an outer pass on that
    batch; both passes hand [backward] the standard trainer's loss with the
    coefficient [get_reg_term] of the model of the pass. *)
Lemma meta_train_adv_passes args train val test w :
  0 < var_threshold args → val ≠ [] ∨ train = [] →
  ∃ loc w' L,
    meta_train_adv train val test args w = (Ok tt, w') ∧
    w_log w' = w_log w ++ [EValIter] ++ L ++ meta_final_saves args loc ∧
    rounds_log
      (train_batches_log
         (meta_batch_log
            (pass_with_loss (select_norm args) (meta_loss_at args (threshold_of args)))
            (pass_with_loss (select_norm args) (meta_loss_at args (threshold_of args))))
         train)
      args train test (select_norm args) 0 (mkStats (-1) [] []) L (stats loc)
      (Z.to_nat (num_epochs args)).
Proof.
  intros Hv Hcond.
  destruct (meta_train_epochs_rounds
              (train_batches_log
                 (meta_batch_log
                    (pass_with_loss (select_norm args)
                       (meta_loss_at args (threshold_of args)))
                    (pass_with_loss (select_norm args)
                       (meta_loss_at args (threshold_of args)))) train)
              args train val test (select_norm args) (threshold_of args)
              (λ loc w, meta_train_batches_pass args train val _ _ loc w Hcond)
              (Z.to_nat (num_epochs args)) 0%nat
              (meta_train_init args (w_model w) val) (after_iter w))
    as (loc & w1 & L & E & Hlog & HL).
  exists loc, (mkWorld (w_model w1) (w_rng w1) (w_log w1 ++ meta_final_saves args loc)), L.
  split; [by apply meta_train_adv_run|].
  split; [|done]. simpl. rewrite Hlog. simpl. by rewrite <- !app_assoc.
Qed.

(** ** Rounding to float32 *)


Lemma round_half_even_IZR n : round_half_even (IZR n) = n.
Proof.
  unfold round_half_even. cbn zeta. rewrite ZfloorZ.
  destruct (Rlt_dec _ _) as [|Hn]; [done|]. exfalso. apply Hn. lra.
Qed.


Lemma ln_2_pos : 0 < ln 2.
Proof. rewrite <- ln_1. apply ln_increasing; lra. Qed.

Lemma powerRZ_2_exp e : powerRZ 2 e = exp (IZR e * ln 2).
Proof. rewrite powerRZ_Rpower by lra. reflexivity. Qed.


Lemma binade_eq x e :
  powerRZ 2 e <= x < powerRZ 2 (e + 1) → binade x = e.
Proof.
  intros [Hlo Hhi]. pose proof ln_2_pos as H2.
  assert (0 < x) as Hx by (pose proof (powerRZ_lt 2 e); lra).
  rewrite !powerRZ_2_exp, plus_IZR in *.
  apply Zfloor_eq. split.
  - apply (Rmult_le_reg_r (ln 2)); [done|].
    replace (ln x / ln 2 * ln 2) with (ln x) by (field; lra).
    rewrite <- (ln_exp (IZR e * ln 2)).
    destruct Hlo as [Hlt|Heq]; [left; apply ln_increasing; [apply exp_pos|done]|right; by rewrite Heq].
  - apply (Rmult_lt_reg_r (ln 2)); [done|].
    replace (ln x / ln 2 * ln 2) with (ln x) by (field; lra).
    rewrite <- (ln_exp ((IZR e + 1) * ln 2)). by apply ln_increasing.
Qed.








(** On [[1, 2)] the float32 numbers are the multiples of [2^-23]. *)
Lemma round_float32_binade_1 x :
  1 <= x < 2 → round_float32 x = IZR (round_half_even (x * 8388608)) / 8388608.
Proof.
  intros Hx. unfold round_float32. destruct (Rlt_dec 0 x); [|lra].
  unfold round_float32_pos. cbn zeta. rewrite (binade_eq x 0) by (simpl; lra).
  replace (powerRZ 2 (23 - 0)) with 8388608 by (simpl; lra).
  replace (powerRZ 2 (0 - 23)) with (/ 8388608) by (simpl; lra).
  reflexivity.
Qed.

Lemma round_float32_1 : round_float32 1 = 1.
Proof.
  rewrite round_float32_binade_1 by lra.
  replace (1 * 8388608) with (IZR 8388608) by lra.
  rewrite round_half_even_IZR. lra.
Qed.

Lemma round_float32_2 : round_float32 2 = 2.
Proof.
  unfold round_float32. destruct (Rlt_dec 0 2); [|lra].
  unfold round_float32_pos. cbn zeta. rewrite (binade_eq 2 1) by (simpl; lra).
  replace (2 * powerRZ 2 (23 - 1)) with (IZR 8388608) by (simpl; lra).
  rewrite round_half_even_IZR. simpl. lra.
Qed.


(** ** The scopes of the two optimizers of [meta_train_adv] *)

Lemma elem_of_parameters path m n :
  n ∈ parameters path m ↔ path `prefix_of` n ∧ is_Some (named_parameters m !! n).
Proof.
  unfold parameters. rewrite list_elem_of_filter, elem_of_elements, elem_of_dom. done.
Qed.

Lemma elem_of_concat {A} (ls : list (list A)) (x : A) :
  x ∈ concat ls ↔ ∃ l, x ∈ l ∧ l ∈ ls.
Proof.
  rewrite list_elem_of_In, in_concat. split.
  - intros (l & Hl & Hx). exists l. by rewrite !list_elem_of_In.
  - intros (l & Hx & Hl). exists l. by rewrite <- !list_elem_of_In.
Qed.

Lemma elem_of_groups_of modules m n :
  n ∈ concat (groups_of modules m) ↔
  ∃ path, path ∈ modules ∧ path `prefix_of` n ∧ is_Some (named_parameters m !! n).
Proof.
  unfold groups_of. rewrite elem_of_concat. split.
  - intros (g & Hn & Hg). apply list_elem_of_fmap in Hg as (path & -> & Hp).
    apply elem_of_parameters in Hn. by exists path.
  - intros (path & Hp & Hpre & Hsome). exists (parameters path m). split.
    + by apply elem_of_parameters.
    + apply list_elem_of_fmap. by exists path.
Qed.

(** No module of one optimizer lies on the path of a module of the other. *)
Lemma modules_apart p q :
  p ∈ inner_modules → q ∈ outer_modules → ¬ p `prefix_of` q ∧ ¬ q `prefix_of` p.
Proof.
  unfold inner_modules, outer_modules. intros Hp Hq.
  repeat (apply elem_of_cons in Hp as [->|Hp]);
    [..|by apply elem_of_nil in Hp];
    (repeat (apply elem_of_cons in Hq as [->|Hq]);
      [..|by apply elem_of_nil in Hq]);
    split; intros [k Hk]; simplify_eq.
Qed.

Lemma step_param_frame lr k acc n :
  n ≠ k → (step_param adam_init adam_update lr k acc).2 !! n = acc.2 !! n.
Proof.
  intros Hne. destruct acc as [st ps]. unfold step_param.
  destruct (ps !! k) as [p|]; [|done]. destruct (grad p) as [g|]; [|done].
  destruct (adam_update _ _ _ _). simpl. by rewrite lookup_insert_ne.
Qed.

Lemma foldl_step_param_frame lr l acc n :
  n ∉ l →
  (foldl (λ acc k, step_param adam_init adam_update lr k acc) acc l).2 !! n = acc.2 !! n.
Proof.
  revert acc. induction l as [|k l IH]; intros acc Hn; simpl; [done|].
  apply not_elem_of_cons in Hn as [Hne Hn].
  rewrite IH by done. by apply step_param_frame.
Qed.

Lemma Adam_step_frame o m n :
  n ∉ scope o →
  named_parameters (Adam_step adam_init adam_update o m).2 !! n = named_parameters m !! n.
Proof.
  intros Hn. unfold Adam_step.
  pose proof (foldl_step_param_frame (lr_of o) (scope o)
                (state o, named_parameters m) n Hn) as Hf.
  by destruct (foldl _ _ _).
Qed.

(** C2. The parameters the inner optimizer of the meta trainer is built over
    (generator, noise mu-head, noise sigma-head, prototypes) and those the
    outer optimizer is built over (noise bias-head, regularization term) are
    disjoint; a step of either optimizer leaves every parameter of the other
    one's scope as it was (value and gradient), and a step does not change
    what an optimizer is built over. *)
Theorem meta_optimizer_scopes_disjoint_and_framed (m0 : Model) (oi oo : Adam) :
  param_groups oi = groups_of inner_modules m0 →
  param_groups oo = groups_of outer_modules m0 →
  (∀ n, n ∈ scope oi → n ∉ scope oo) ∧
  (∀ m n, n ∈ scope oo →
     named_parameters (Adam_step adam_init adam_update oi m).2 !! n =
     named_parameters m !! n) ∧
  (∀ m n, n ∈ scope oi →
     named_parameters (Adam_step adam_init adam_update oo m).2 !! n =
     named_parameters m !! n) ∧
  (∀ m, param_groups (Adam_step adam_init adam_update oi m).1 = param_groups oi ∧
        param_groups (Adam_step adam_init adam_update oo m).1 = param_groups oo).
Proof.
  intros Hi Ho.
  assert (∀ n, n ∈ scope oi → n ∉ scope oo) as Hdisj.
  { unfold scope. rewrite Hi, Ho. intros n Hni Hno.
    apply elem_of_groups_of in Hni as (p & Hp & Hpn & _).
    apply elem_of_groups_of in Hno as (q & Hq & Hqn & _).
    destruct (modules_apart p q Hp Hq) as [Hpq Hqp].
    destruct (prefix_weak_total p q n Hpn Hqn); tauto. }
  split; [exact Hdisj|]. split; [|split].
  - intros m n Hn. apply Adam_step_frame. intros Hn'. by apply (Hdisj n).
  - intros m n Hn. apply Adam_step_frame. by apply Hdisj.
  - intros m. split; apply Adam_step_groups.
Qed.

(** ** The loss *)

(** C3. In a completed run of either trainer every pass through the
    pipeline hands [backward] the same loss: [w * adv_loss + (1 - w) *
    clean_loss + coeff * penalty], computed from the logits of the pass on
    the clean and on the perturbed input and from the model the pass has
    reached. In [train_adv] the coefficient is the configured [reg_term]; in
    the inner and in the outer pass of [meta_train_adv] it is
    [model.get_reg_term()] of the model at that moment, and nothing else
    differs. *)
Theorem meta_loss_is_train_loss_with_live_reg_term args :
  0 < var_threshold args →
  let T := threshold_of args in
  let nf := select_norm args in
  (∀ m lc la t,
     train_loss args T m lc la t =
       adv_loss_w args * cross_entropy la t +
       (1 - adv_loss_w args) * cross_entropy lc t +
       reg_term args * noise_penalty T (dist_entropy m)) ∧
  (∀ train test w, ∃ st w' L,
     train_adv train test args w = (Ok tt, w') ∧
     w_log w' = w_log w ++ L ++ final_saves args st ∧
     rounds_log
       (train_batches_log
          (pass_with_loss nf
             (λ b p, train_loss args T (pass_model p) (pass_logits_clean p)
                       (pass_logits_adv p) b.2))
          train)
       args train test nf 0 (mkStats (-1) [] []) L st (Z.to_nat (num_epochs args))) ∧
  (∀ train val test w, val ≠ [] ∨ train = [] → ∃ loc w' L,
     meta_train_adv train val test args w = (Ok tt, w') ∧
     w_log w' = w_log w ++ [EValIter] ++ L ++ meta_final_saves args loc ∧
     let meta_pass :=
       pass_with_loss nf
         (λ b p, train_loss (set_reg_term (get_reg_term (pass_model p)) args) T
                   (pass_model p) (pass_logits_clean p) (pass_logits_adv p) b.2) in
     rounds_log (train_batches_log (meta_batch_log meta_pass meta_pass) train)
       args train test nf 0 (mkStats (-1) [] []) L (stats loc)
       (Z.to_nat (num_epochs args))).
Proof.
  intros Hv T nf. split; [done|]. split.
  - intros train test w. apply (train_adv_passes args train test w Hv).
  - intros train val test w Hcond.
    apply (meta_train_adv_passes args train val test w Hv Hcond).
Qed.

(** ** The entropy penalty *)










(** ** The perturbation strength *)




(** ** Normalization *)

Lemma select_norm_cifar10 args :
  dataset args = "cifar10"%string → select_norm args = Some normalize_cifar10.
Proof. intros E. unfold select_norm. by rewrite E. Qed.

Lemma select_norm_other args :
  dataset args ≠ "cifar10"%string → select_norm args = None.
Proof.
  intros Hne. unfold select_norm.
  destruct (String.eqb_spec (dataset args) "cifar10"); done.
Qed.

(** C8. The normalization both trainers select is [normalize_cifar10] exactly
    when [args['dataset'] == 'cifar10'] and none otherwise. In a completed
    run of either trainer, in every pass through the pipeline (on every
    training batch of every epoch, and in the meta trainer on every
    validation batch drawn) the attack sees the raw batch and the two forward
    passes see the clean input and the attack's output, both normalized when
    a normalization was selected and both untouched otherwise; and the only
    calls of the accuracy evaluator are the two of each epoch, on the
    training and on the test source, with this same selection. *)
Theorem normalization_iff_cifar10 args :
  let nf := select_norm args in
  (dataset args = "cifar10"%string ↔ nf = Some normalize_cifar10) ∧
  (dataset args ≠ "cifar10"%string ↔ nf = None) ∧
  (∀ x, apply_norm nf x =
        if decide (dataset args = "cifar10"%string) then normalize_cifar10 x else x) ∧
  (0 < var_threshold args → ∀ train test w, ∃ st w' L,
     train_adv train test args w = (Ok tt, w') ∧
     w_log w' = w_log w ++ L ++ final_saves args st ∧
     rounds_log (train_batches_log (normalized_pass nf) train)
       args train test nf 0 (mkStats (-1) [] []) L st (Z.to_nat (num_epochs args)) ∧
     accuracy_calls (w_log w') =
       accuracy_calls (w_log w) ++
       concat (replicate (Z.to_nat (num_epochs args)) [(train, nf); (test, nf)])) ∧
  (0 < var_threshold args → ∀ train val test w, val ≠ [] ∨ train = [] → ∃ loc w' L,
     meta_train_adv train val test args w = (Ok tt, w') ∧
     w_log w' = w_log w ++ [EValIter] ++ L ++ meta_final_saves args loc ∧
     rounds_log
       (train_batches_log (meta_batch_log (normalized_pass nf) (normalized_pass nf)) train)
       args train test nf 0 (mkStats (-1) [] []) L (stats loc)
       (Z.to_nat (num_epochs args)) ∧
     accuracy_calls (w_log w') =
       accuracy_calls (w_log w) ++
       concat (replicate (Z.to_nat (num_epochs args)) [(train, nf); (test, nf)])).
Proof.
  intros nf. subst nf.
  split.
  { split; [apply select_norm_cifar10|]. intros Hn.
    destruct (decide (dataset args = "cifar10"%string)) as [|Hne]; [done|].
    by rewrite (select_norm_other args Hne) in Hn. }
  split.
  { split; [apply select_norm_other|]. intros Hn Hd.
    by rewrite (select_norm_cifar10 args Hd) in Hn. }
  split.
  { intros x. case_decide as Hd.
    - by rewrite (select_norm_cifar10 args Hd).
    - by rewrite (select_norm_other args Hd). }
  split.
  - intros Hv train test w.
    destruct (train_adv_passes args train test w Hv) as (st & w' & L & E & Hlog & HL).
    exists st, w', L. split; [done|]. split; [done|]. split.
    + eapply rounds_log_impl; [|exact HL]. intros evs.
      apply train_batches_log_impl. intros b seg. apply pass_with_loss_normalized.
    + rewrite Hlog, !accuracy_calls_app, (rounds_accuracy_calls _ _ _ _ _ _ _ _ _ _ HL).
      simpl. by rewrite app_nil_r.
  - intros Hv train val test w Hcond.
    destruct (meta_train_adv_passes args train val test w Hv Hcond)
      as (loc & w' & L & E & Hlog & HL).
    exists loc, w', L. split; [done|]. split; [done|]. split.
    + eapply rounds_log_impl; [|exact HL]. intros evs.
      apply train_batches_log_impl. intros b seg.
      apply meta_batch_log_impl; intros b0 seg0; apply pass_with_loss_normalized.
    + rewrite Hlog, !accuracy_calls_app, (rounds_accuracy_calls _ _ _ _ _ _ _ _ _ _ HL).
      simpl. by rewrite app_nil_r.
Qed.

(** ** The validation cursor over whole runs *)

Lemma train_adv_domain_error train test args w :
  ¬ 0 < var_threshold args → train_adv train test args w = (Raise ValueError, w).
Proof.
  intros Hv. unfold train_adv. mrun. by rewrite (entropy_threshold_raise args w Hv).
Qed.

Lemma meta_train_adv_domain_error train val test args w :
  ¬ 0 < var_threshold args →
  meta_train_adv train val test args w = (Raise ValueError, w).
Proof.
  intros Hv. unfold meta_train_adv. mrun. by rewrite (entropy_threshold_raise args w Hv).
Qed.

Lemma val_draws_meta_final_saves args loc : val_draws (meta_final_saves args loc) = [].
Proof. reflexivity. Qed.

(** C1. With a non-empty validation source the meta trainer never lets the
    cursor's exhaustion out; when the run starts at all ([var_threshold]
    positive) it completes, and the batches the outer steps drew are, over
    the whole run and across epoch boundaries, batch [k mod len(val)] of the
    source for the [k]-th draw, one draw per training batch, however short
    the validation source is. *)
Theorem validation_cursor_wraps args train val test w :
  val ≠ [] →
  (meta_train_adv train val test args w).1 ≠ Raise StopIteration ∧
  (0 < var_threshold args →
   ∃ w' ds,
     meta_train_adv train val test args w = (Ok tt, w') ∧
     val_draws (w_log w') = val_draws (w_log w) ++ ds ∧
     length ds = (Z.to_nat (num_epochs args) * length train)%nat ∧
     ∀ k, (k < length ds)%nat → ds !! k = val !! (k mod length val)%nat).
Proof.
  intros Hval.
  assert (0 < var_threshold args →
    ∃ w' ds,
      meta_train_adv train val test args w = (Ok tt, w') ∧
      val_draws (w_log w') = val_draws (w_log w) ++ ds ∧
      length ds = (Z.to_nat (num_epochs args) * length train)%nat ∧
      ∀ k, (k < length ds)%nat → ds !! k = val !! (k mod length val)%nat) as Hrun.
  { intros Hv.
    destruct (meta_train_epochs_from args train val test (select_norm args)
                (threshold_of args) 0 (Z.to_nat (num_epochs args)) 0
                (meta_train_init args (w_model w) val) (after_iter w) (or_introl Hval))
      as (loc & w1 & evs & E & Hlog & _ & _ & _ & _ & _ & _ & _ & Hcur).
    destruct (Hcur Hval (cursor_at_start val)) as (_ & Hlen & Hnth).
    eexists _, (val_draws evs). split; [by apply meta_train_adv_run|].
    simpl. rewrite Hlog. unfold after_iter. simpl.
    rewrite !val_draws_app, val_draws_meta_final_saves, app_nil_r. simpl.
    rewrite app_nil_r. split; [done|]. split; [done|].
    intros k Hk. rewrite Hlen in Hk. by rewrite (Hnth k Hk). }
  split; [|exact Hrun].
  destruct (Rlt_dec 0 (var_threshold args)) as [Hv|Hv].
  - destruct (Hrun Hv) as (w' & ds & E & _). by rewrite E.
  - by rewrite meta_train_adv_domain_error.
Qed.

Lemma meta_train_epochs_empty args d t train test nf thr n loc w :
  val_iter loc = [] →
  ∃ w' eps x_adv loss,
    for_each (seq 0 (S n)) (meta_train_epoch args ((d, t) :: train) [] test nf thr) loc w =
      (Raise StopIteration, w') ∧
    w_log w' = w_log w ++ step_log nf d t eps x_adv loss ++
                 [EValNext None; EValIter; EValNext None].
Proof.
  intros Hit.
  destruct (meta_train_batch_empty args nf thr d t loc w Hit)
    as (w' & eps & x_adv & loss & E & Hlog).
  exists w', eps, x_adv, loss. split; [|done].
  simpl. erewrite bind_raise; [reflexivity|].
  unfold meta_train_epoch. erewrite bind_raise; [reflexivity|].
  simpl. by erewrite bind_raise.
Qed.

Lemma meta_train_adv_empty_val args d t train test w :
  0 < var_threshold args → (1 <= num_epochs args)%Z →
  ∃ w' eps x_adv loss,
    meta_train_adv ((d, t) :: train) [] test args w = (Raise StopIteration, w') ∧
    w_log w' = w_log w ++ [EValIter] ++
                 step_log (select_norm args) d t eps x_adv loss ++
                 [EValNext None; EValIter; EValNext None].
Proof.
  intros Hv Hn.
  destruct (Z.to_nat (num_epochs args)) as [|n] eqn:En; [lia|].
  destruct (meta_train_epochs_empty args d t train test (select_norm args)
              (threshold_of args) n (meta_train_init args (w_model w) []) (after_iter w)
              eq_refl)
    as (w' & eps & x_adv & loss & E & Hlog).
  exists w', eps, x_adv, loss. split.
  - apply meta_train_adv_raise; [done|]. unfold meta_train_epochs. by rewrite En.
  - rewrite Hlog. unfold after_iter. simpl. by rewrite <- app_assoc.
Qed.

(** C9. On an empty validation source the handler of the outer step restarts
    the pass once, draws again, and lets that second exhaustion through; a
    run with at least one epoch and one training batch therefore ends with
    [StopIteration] in its first outer step, right after the first inner
    step. *)
Theorem empty_validation_source_aborts args d t train test w :
  0 < var_threshold args → (1 <= num_epochs args)%Z →
  (∀ w0, next_val_batch [] [] w0 =
           (Raise StopIteration,
            mkWorld (w_model w0) (w_rng w0)
              (w_log w0 ++ [EValNext None; EValIter; EValNext None]))) ∧
  ∃ w' eps x_adv loss,
    meta_train_adv ((d, t) :: train) [] test args w = (Raise StopIteration, w') ∧
    w_log w' = w_log w ++ [EValIter] ++
                 step_log (select_norm args) d t eps x_adv loss ++
                 [EValNext None; EValIter; EValNext None].
Proof.
  intros Hv Hn. split; [apply next_val_batch_empty|].
  by apply meta_train_adv_empty_val.
Qed.

(** ** Checkpoints and histories *)

Lemma for_each_snoc {A St} (l : list A) (x : A) (body : A → St → M St) s w :
  for_each (l ++ [x]) body s w = (for_each l body s ≫= body x) w.
Proof.
  rewrite for_each_app. munfold.
  destruct (for_each l body s w) as [[s'|e] w']; [|done].
  simpl. munfold. by destruct (body x s' w') as [[s''|e] w''].
Qed.

Lemma saved_paths_epoch_tail args train test nf epoch best tr te sd :
  saved_paths (epoch_tail args train test nf epoch best tr te sd) =
    ckpt_path args :: (if Rlt_dec best te then [best_path args] else []).
Proof. unfold epoch_tail. by destruct (Rlt_dec best te). Qed.

Lemma best_saved_iff args train test nf epoch best tr te sd evs :
  Forall batch_event evs →
  best_path args ∈ saved_paths (evs ++ epoch_tail args train test nf epoch best tr te sd)
  ↔ best < te.
Proof.
  intros Hevs.
  rewrite saved_paths_app, saved_paths_batch, saved_paths_epoch_tail by done. simpl.
  pose proof (ckpt_path_ne_best args) as Hne.
  destruct (Rlt_dec best te) as [Hlt|Hnlt].
  - split; [done|]. intros _. apply elem_of_cons. right. by apply list_elem_of_singleton.
  - split; [|done]. intros Hin. apply list_elem_of_singleton in Hin. congruence.
Qed.

(** C6. In both trainers, and for every epoch [k] the run reaches, the epoch
    saves to [ckpt_best.pt] exactly when its test accuracy is above the test
    accuracy of every earlier epoch; and the marker [best_test_acc] after
    the epoch is at least what it was before. The accuracy evaluator is
    taken to keep its contract (values in [[0, 1]]). The one case in which
    the meta trainer reaches the end of no epoch is an empty validation
    source with a training batch to process. *)
Theorem best_checkpoint_iff_new_maximum args train val test thr m0 w k :
  accuracy_in_unit_interval →
  (∃ opt st wk opt' st' w' evs te,
     train_adv_epochs args train test thr k (train_adv_init args m0) w =
       (Ok (opt, st), wk) ∧
     train_adv_epochs args train test thr (S k) (train_adv_init args m0) w =
       (Ok (opt', st'), w') ∧
     w_log w' = w_log wk ++ evs ∧
     length (test_accuracy st) = k ∧
     test_accuracy st' = test_accuracy st ++ [te] ∧
     (best_path args ∈ saved_paths evs ↔ ∀ a, a ∈ test_accuracy st → a < te) ∧
     best_test_acc st <= best_test_acc st') ∧
  (val ≠ [] ∨ train = [] →
   ∃ loc wk loc' w' evs te,
     meta_train_epochs args train val test thr k (meta_train_init args m0 val) w =
       (Ok loc, wk) ∧
     meta_train_epochs args train val test thr (S k) (meta_train_init args m0 val) w =
       (Ok loc', w') ∧
     w_log w' = w_log wk ++ evs ∧
     length (test_accuracy (stats loc)) = k ∧
     test_accuracy (stats loc') = test_accuracy (stats loc) ++ [te] ∧
     (best_path args ∈ saved_paths evs ↔
        ∀ a, a ∈ test_accuracy (stats loc) → a < te) ∧
     best_test_acc (stats loc) <= best_test_acc (stats loc')) ∧
  (∀ d t train', train = (d, t) :: train' → val = [] →
   ∃ w', meta_train_epochs args train val test thr (S k) (meta_train_init args m0 val) w =
           (Raise StopIteration, w')).
Proof.
  intros Hacc. split; [|split].
  - destruct (train_adv_epochs_from args train test (select_norm args) thr 0 k
                (train_adv_init args m0).1 (train_adv_init args m0).2 w)
      as (opt & st & wk & evs0 & E & _ & _ & Hlen & Hok).
    specialize (Hok Hacc stats_ok_init).
    destruct (train_adv_epoch_spec args train test (select_norm args) thr k opt st wk)
      as (opt' & w' & evs & m1 & m2 & sd & E' & Hlog & Hevs & _).
    cbn zeta in E', Hlog.
    assert (-1 < (accuracy m2 test (select_norm args)).2) as Hte.
    { destruct (Hacc m2 test (select_norm args)). lra. }
    eexists opt, st, wk, opt', _, w', _, _. split; [exact E|]. split.
    { unfold train_adv_epochs in *. rewrite seq_S, for_each_snoc.
      erewrite bind_ok by exact E. exact E'. }
    split; [exact Hlog|]. split; [exact Hlen|]. split; [reflexivity|]. split.
    + rewrite best_saved_iff by done. by apply new_best_iff.
    + apply stats_after_mono.
  - intros Hcond.
    destruct (meta_train_epochs_from args train val test (select_norm args) thr 0 k 0
                (meta_train_init args m0 val) w Hcond)
      as (loc & wk & evs0 & E & _ & _ & Hlen & _ & _ & Hok & _).
    specialize (Hok Hacc stats_ok_init).
    destruct (meta_train_epoch_spec args train val test (select_norm args) thr 0 k
                loc wk Hcond)
      as (loc' & w' & evs & m1 & m2 & sd & bv & rt & E' & Hst & _ & _ & _ & _ & Hlog &
          Hevs & _).
    cbn zeta in E', Hst, Hlog.
    assert (-1 < (accuracy m2 test (select_norm args)).2) as Hte.
    { destruct (Hacc m2 test (select_norm args)). lra. }
    eexists loc, wk, loc', w', _, _. split; [exact E|]. split.
    { unfold meta_train_epochs in *. rewrite seq_S, for_each_snoc.
      erewrite bind_ok by exact E. exact E'. }
    split; [exact Hlog|]. split; [exact Hlen|]. rewrite Hst.
    split; [reflexivity|]. split.
    + rewrite best_saved_iff by done. by apply new_best_iff.
    + apply stats_after_mono.
  - intros d t train' -> ->.
    destruct (meta_train_epochs_empty args d t train' test (select_norm args) thr k
                (meta_train_init args m0 []) w eq_refl)
      as (w' & eps & x_adv & loss & E & _).
    by exists w'.
Qed.

Lemma train_adv_completes args train test w :
  0 < var_threshold args →
  ∃ opt st w1 evs,
    train_adv_epochs args train test (threshold_of args) (Z.to_nat (num_epochs args))
      (train_adv_init args (w_model w)) w = (Ok (opt, st), w1) ∧
    train_adv train test args w =
      (Ok tt, mkWorld (w_model w1) (w_rng w1) (w_log w1 ++ final_saves args st)) ∧
    w_log w1 = w_log w ++ evs ∧
    length (train_accuracy st) = Z.to_nat (num_epochs args) ∧
    length (test_accuracy st) = Z.to_nat (num_epochs args).
Proof.
  intros Hv.
  destruct (train_adv_epochs_from args train test (select_norm args) (threshold_of args)
              0 (Z.to_nat (num_epochs args))
              (train_adv_init args (w_model w)).1 (train_adv_init args (w_model w)).2 w)
    as (opt & st & w1 & evs & E & Hlog & Htr & Hte & _).
  exists opt, st, w1, evs. split; [exact E|].
  split; [by apply (train_adv_run _ _ _ _ opt)|]. by split.
Qed.

Lemma meta_train_adv_completes args train val test w :
  0 < var_threshold args → val ≠ [] ∨ train = [] →
  ∃ loc w1 evs,
    meta_train_epochs args train val test (threshold_of args)
      (Z.to_nat (num_epochs args)) (meta_train_init args (w_model w) val) (after_iter w) =
      (Ok loc, w1) ∧
    meta_train_adv train val test args w =
      (Ok tt, mkWorld (w_model w1) (w_rng w1) (w_log w1 ++ meta_final_saves args loc)) ∧
    w_log w1 = w_log w ++ [EValIter] ++ evs ∧
    length (train_accuracy (stats loc)) = Z.to_nat (num_epochs args) ∧
    length (test_accuracy (stats loc)) = Z.to_nat (num_epochs args) ∧
    length (b_hist loc) = Z.to_nat (num_epochs args) ∧
    length (reg_term_hist loc) = Z.to_nat (num_epochs args).
Proof.
  intros Hv Hcond.
  destruct (meta_train_epochs_from args train val test (select_norm args)
              (threshold_of args) 0 (Z.to_nat (num_epochs args)) 0
              (meta_train_init args (w_model w) val) (after_iter w) Hcond)
    as (loc & w1 & evs & E & Hlog & Htr & Hte & Hbh & Hrh & _).
  exists loc, w1, evs. split; [exact E|]. split; [by apply meta_train_adv_run|].
  split; [rewrite Hlog; simpl; by rewrite <- app_assoc|]. by repeat split.
Qed.

(** C7. A run of either trainer that completes, for a number of epochs
    [num_epochs >= 0], ends by saving a train-accuracy and a test-accuracy
    history of exactly [num_epochs] entries each, and in the meta trainer
    also a bias-head history and a regularization-term history of exactly
    [num_epochs] entries each. The standard trainer completes whenever
    [var_threshold] is positive, the meta trainer whenever moreover the
    validation source is non-empty or there is no training batch. *)
Theorem histories_have_num_epochs_entries args train val test w :
  (0 <= num_epochs args)%Z →
  (∀ w', train_adv train test args w = (Ok tt, w') →
     ∃ pre tr te,
       w_log w' = w_log w ++ pre ++
         [ENpSave (path_join (output_stats args) "train_acc.npy") tr;
          ENpSave (path_join (output_stats args) "test_acc.npy") te] ∧
       Z.of_nat (length tr) = num_epochs args ∧
       Z.of_nat (length te) = num_epochs args) ∧
  (∀ w', meta_train_adv train val test args w = (Ok tt, w') →
     ∃ pre tr te bh rh,
       w_log w' = w_log w ++ pre ++
         [ENpSave (path_join (output_stats args) "train_acc.npy") tr;
          ENpSave (path_join (output_stats args) "test_acc.npy") te;
          ENpSaveTensors (path_join (output_stats args) "b_hist.npy") bh;
          ENpSave (path_join (output_stats args) "reg_term_hist.npy") rh] ∧
       Z.of_nat (length tr) = num_epochs args ∧
       Z.of_nat (length te) = num_epochs args ∧
       Z.of_nat (length bh) = num_epochs args ∧
       Z.of_nat (length rh) = num_epochs args) ∧
  (0 < var_threshold args → ∃ w', train_adv train test args w = (Ok tt, w')) ∧
  (0 < var_threshold args → val ≠ [] ∨ train = [] →
     ∃ w', meta_train_adv train val test args w = (Ok tt, w')).
Proof.
  intros Hn. split; [|split; [|split]].
  - intros w' Hrun.
    destruct (Rlt_dec 0 (var_threshold args)) as [Hv|Hv];
      [|by rewrite train_adv_domain_error in Hrun].
    destruct (train_adv_completes args train test w Hv)
      as (opt & st & w1 & evs & _ & E & Hlog & Htr & Hte).
    rewrite E in Hrun. injection Hrun as <-.
    exists evs, (train_accuracy st), (test_accuracy st). simpl.
    rewrite Hlog, <- app_assoc. split; [done|]. lia.
  - intros w' Hrun.
    destruct (Rlt_dec 0 (var_threshold args)) as [Hv|Hv];
      [|by rewrite meta_train_adv_domain_error in Hrun].
    assert (val ≠ [] ∨ train = [] ∨
            (val = [] ∧ ∃ d t train', train = (d, t) :: train')) as [Hc|[Hc|[-> Hc]]].
    { destruct val; [|by left]. destruct train as [|[d t] train']; [by right; left|].
      right; right. split; [done|]. by exists d, t, train'. }
    1,2: (destruct (meta_train_adv_completes args train val test w Hv)
         as (loc & w1 & evs & _ & E & Hlog & Htr & Hte & Hbh & Hrh); [tauto|];
       rewrite E in Hrun; injection Hrun as <-;
       exists ([EValIter] ++ evs), (train_accuracy (stats loc)),
              (test_accuracy (stats loc)), (b_hist loc), (reg_term_hist loc);
       simpl; rewrite Hlog; simpl; rewrite <- app_assoc; split; [done|lia]).
    destruct Hc as (d & t & train' & ->).
    destruct (Z.to_nat (num_epochs args)) as [|n] eqn:En.
    + rewrite (meta_train_adv_run _ _ _ _ _ (meta_train_init args (w_model w) [])
                 (after_iter w) Hv) in Hrun
        by (unfold meta_train_epochs; by rewrite En).
      injection Hrun as <-. exists [EValIter], [], [], [], []. simpl.
      rewrite <- app_assoc. split; [done|]. lia.
    + destruct (meta_train_adv_empty_val args d t train' test w Hv ltac:(lia))
        as (w2 & eps & x & loss & E & _).
      by rewrite E in Hrun.
  - intros Hv. destruct (train_adv_completes args train test w Hv)
      as (opt & st & w1 & evs & _ & E & _). by eexists.
  - intros Hv Hcond. destruct (meta_train_adv_completes args train val test w Hv Hcond)
      as (loc & w1 & evs & _ & E & _). by eexists.
Qed.

Lemma epoch_tail_first args train test nf tr te sd :
  -1 < te →
  epoch_tail args train test nf 0 (-1) tr te sd =
    [EAccuracy train nf; EAccuracy test nf; ETorchSave sd (ckpt_path args)] ++
    [ETorchSave sd (best_path args); EPrint 1 tr te].
Proof. intros Hte. unfold epoch_tail. by destruct (Rlt_dec (-1) te). Qed.

(** C10. With an accuracy evaluator that keeps its contract (values in
    [[0, 1]]) and [num_epochs >= 1], every run of either trainer that gets
    to the end of its first epoch saves to [ckpt_best.pt] there: the save
    comes right before the line printed for epoch 1, and nothing is printed
    before it. The runs that do not get there are those that fail on
    [var_threshold] before the first epoch and, in the meta trainer, those
    that fail in their first outer step on an empty validation source. *)
Theorem first_epoch_writes_best args train val test w :
  accuracy_in_unit_interval → (1 <= num_epochs args)%Z →
  (0 < var_threshold args →
   ∃ w' pre sd tr te post,
     train_adv train test args w = (Ok tt, w') ∧
     w_log w' = w_log w ++ pre ++
                  [ETorchSave sd (best_path args); EPrint 1 tr te] ++ post ∧
     Forall (λ e, is_print e = false) pre) ∧
  (0 < var_threshold args → val ≠ [] ∨ train = [] →
   ∃ w' pre sd tr te post,
     meta_train_adv train val test args w = (Ok tt, w') ∧
     w_log w' = w_log w ++ pre ++
                  [ETorchSave sd (best_path args); EPrint 1 tr te] ++ post ∧
     Forall (λ e, is_print e = false) pre) ∧
  (¬ 0 < var_threshold args →
   train_adv train test args w = (Raise ValueError, w) ∧
   meta_train_adv train val test args w = (Raise ValueError, w)) ∧
  (0 < var_threshold args → val = [] → train ≠ [] →
   ∃ w' evs,
     meta_train_adv train val test args w = (Raise StopIteration, w') ∧
     w_log w' = w_log w ++ evs ∧ Forall (λ e, is_print e = false) evs).
Proof.
  intros Hacc Hn.
  destruct (Z.to_nat (num_epochs args)) as [|n] eqn:En; [lia|].
  split; [|split; [|split]].
  - intros Hv. destruct (train_adv_epoch_spec args train test (select_norm args) (threshold_of args)
                0 (train_adv_init args (w_model w)).1 (train_adv_init args (w_model w)).2 w)
      as (opt1 & w1 & evs & m1 & m2 & sd & E1 & Hlog1 & Hevs & _).
    cbn zeta in E1, Hlog1.
    set (tr := (accuracy m1 train (select_norm args)).2) in *.
    set (te := (accuracy m2 test (select_norm args)).2) in *.
    assert (-1 < te) as Hte.
    { unfold te. destruct (Hacc m2 test (select_norm args)). lra. }
    destruct (train_adv_epochs_from args train test (select_norm args) (threshold_of args)
                1 n opt1 (stats_after (train_adv_init args (w_model w)).2 tr te) w1)
      as (opt2 & st2 & w2 & evs2 & E2 & Hlog2 & _).
    eexists _, (evs ++ [EAccuracy train (select_norm args);
                        EAccuracy test (select_norm args); ETorchSave sd (ckpt_path args)]),
            sd, tr, te, (evs2 ++ final_saves args st2).
    split; [|split].
    + apply (train_adv_run _ _ _ _ opt2 st2 w2 Hv).
      unfold train_adv_epochs. rewrite En. simpl.
      erewrite bind_ok by exact E1. exact E2.
    + simpl w_log. rewrite Hlog2, Hlog1. simpl best_test_acc.
      rewrite epoch_tail_first by done. by rewrite <- !app_assoc.
    + apply Forall_app. split; [by apply no_print_batch|by repeat constructor].
  - intros Hv Hcond.
    destruct (meta_train_epoch_spec args train val test (select_norm args)
                (threshold_of args) 0 0 (meta_train_init args (w_model w) val)
                (after_iter w) Hcond)
      as (loc1 & w1 & evs & m1 & m2 & sd & bv & rt & E1 & Hst1 & _ & _ & _ & _ & Hlog1 &
          Hevs & _).
    cbn zeta in E1, Hst1, Hlog1.
    set (tr := (accuracy m1 train (select_norm args)).2) in *.
    set (te := (accuracy m2 test (select_norm args)).2) in *.
    assert (-1 < te) as Hte.
    { unfold te. destruct (Hacc m2 test (select_norm args)). lra. }
    destruct (meta_train_epochs_from args train val test (select_norm args)
                (threshold_of args) 1 n 0 loc1 w1 Hcond)
      as (loc2 & w2 & evs2 & E2 & Hlog2 & _).
    eexists _, ([EValIter] ++ evs ++
                [EAccuracy train (select_norm args); EAccuracy test (select_norm args);
                 ETorchSave sd (ckpt_path args)]),
            sd, tr, te, (evs2 ++ meta_final_saves args loc2).
    split; [|split].
    + apply (meta_train_adv_run _ _ _ _ _ loc2 w2 Hv).
      unfold meta_train_epochs. rewrite En. simpl.
      erewrite bind_ok by exact E1. exact E2.
    + simpl w_log. rewrite Hlog2, Hlog1. simpl best_test_acc.
      rewrite epoch_tail_first by done. simpl w_log. by rewrite <- !app_assoc.
    + apply Forall_cons. split; [done|].
      apply Forall_app. split; [by apply no_print_batch|by repeat constructor].
  - intros Hv. split.
    + by apply train_adv_domain_error.
    + by apply meta_train_adv_domain_error.
  - intros Hv -> Htrain. destruct train as [|[d t] train']; [done|].
    destruct (meta_train_adv_empty_val args d t train' test w Hv Hn)
      as (w' & eps & x_adv & loss & E & Hlog).
    eexists w', _. split; [exact E|]. split; [exact Hlog|].
    by repeat constructor.
Qed.


(** ** Traces: what a run does, call by call *)

Lemma perturb_rng args d t w :
  w_rng (perturb args d t w).2 = rng_after_attack args (w_rng w).
Proof.
  unfold perturb, rng_after_attack.
  destruct (isinstance_float (epsilon args)) as [e|] eqn:Ef.
  - rewrite call_attack_run. destruct (epsilon args); simplify_eq; done.
  - destruct (py_eq_str (epsilon args) "rand").
    + erewrite bind_ok by apply np_random_choice_eps_run. by rewrite call_attack_run.
    + by rewrite call_attack_run.
Qed.

Ltac pipeline_rng E :=
  erewrite bind_ok by exact E; mrun; reflexivity.

Lemma train_adv_batch_trace args nf thr d t opt w :
  ∃ opt' w' evs,
    train_adv_batch args nf thr (d, t) opt w = (Ok opt', w') ∧
    w_log w' = w_log w ++ evs ∧ Forall batch_event evs ∧
    attacked evs = [(d, t)] ∧ val_draws evs = [] ∧
    w_rng w' = rng_after_attack args (w_rng w).
Proof.
  destruct (train_adv_batch_spec args nf thr d t opt w)
    as (opt' & w' & eps & m & lc & la & E & _ & Hlog & _).
  exists opt', w', (step_log nf d t eps (attack (w_model w) d t eps).2
                      (train_loss args thr m lc la t)).
  split; [done|]. split; [done|]. split; [apply step_log_batch|].
  split; [done|]. split; [done|].
  rewrite <- perturb_rng with (d := d) (t := t).
  destruct (perturb_spec args d t w) as (eps' & g & _ & Ep).
  replace w' with (train_adv_batch args nf thr (d, t) opt w).2 by (by rewrite E).
  rewrite Ep. unfold train_adv_batch. pipeline_rng Ep.
Qed.

Lemma meta_inner_step_trace args nf thr d t opt w :
  ∃ opt' w' evs,
    meta_inner_step args nf thr (d, t) opt w = (Ok opt', w') ∧
    w_log w' = w_log w ++ evs ∧ Forall batch_event evs ∧
    attacked evs = [(d, t)] ∧ val_draws evs = [] ∧
    w_rng w' = rng_after_attack args (w_rng w) ∧
    param_groups opt' = param_groups opt.
Proof.
  destruct (meta_inner_step_spec args nf thr d t opt w)
    as (opt' & w' & eps & m & lc & la & E & _ & Hlog & Hg).
  exists opt', w', (step_log nf d t eps (attack (w_model w) d t eps).2
                      (inner_loss args thr m lc la t)).
  split; [done|]. split; [done|]. split; [apply step_log_batch|].
  split; [done|]. split; [done|]. split; [|done].
  rewrite <- perturb_rng with (d := d) (t := t).
  destruct (perturb_spec args d t w) as (eps' & g & _ & Ep).
  replace w' with (meta_inner_step args nf thr (d, t) opt w).2 by (by rewrite E).
  rewrite Ep. unfold meta_inner_step. pipeline_rng Ep.
Qed.

Lemma meta_outer_step_trace args nf thr d t opt w :
  ∃ opt' w' evs,
    meta_outer_step args nf thr (d, t) opt w = (Ok opt', w') ∧
    w_log w' = w_log w ++ evs ∧ Forall batch_event evs ∧
    attacked evs = [(d, t)] ∧ val_draws evs = [] ∧
    w_rng w' = rng_after_attack args (w_rng w) ∧
    param_groups opt' = param_groups opt.
Proof.
  destruct (meta_outer_step_spec args nf thr d t opt w)
    as (opt' & w' & eps & m & lc & la & E & _ & Hlog & Hg).
  exists opt', w', (step_log nf d t eps (attack (w_model w) d t eps).2
                      (outer_loss args thr m lc la t)).
  split; [done|]. split; [done|]. split; [apply step_log_batch|].
  split; [done|]. split; [done|]. split; [|done].
  rewrite <- perturb_rng with (d := d) (t := t).
  destruct (perturb_spec args d t w) as (eps' & g & _ & Ep).
  replace w' with (meta_outer_step args nf thr (d, t) opt w).2 by (by rewrite E).
  rewrite Ep. unfold meta_outer_step. pipeline_rng Ep.
Qed.

Lemma attacked_app l1 l2 : attacked (l1 ++ l2) = attacked l1 ++ attacked l2.
Proof. apply omap_app. Qed.

Lemma torch_saves_app l1 l2 : torch_saves (l1 ++ l2) = torch_saves l1 ++ torch_saves l2.
Proof. apply omap_app. Qed.

Lemma prints_app l1 l2 : prints (l1 ++ l2) = prints l1 ++ prints l2.
Proof. apply omap_app. Qed.

Lemma np_saved_app l1 l2 : np_saved (l1 ++ l2) = np_saved l1 ++ np_saved l2.
Proof. apply omap_app. Qed.

Lemma batch_events_quiet evs :
  Forall batch_event evs →
  torch_saves evs = [] ∧ prints evs = [] ∧ np_saved evs = [].
Proof.
  induction 1 as [|e evs He _ (IH1 & IH2 & IH3)]; [done|].
  destruct e; try done; simpl in *; done.
Qed.

Lemma train_adv_batches_trace args nf thr train opt w :
  ∃ opt' w' evs,
    for_each train (train_adv_batch args nf thr) opt w = (Ok opt', w') ∧
    w_log w' = w_log w ++ evs ∧ Forall batch_event evs ∧
    attacked evs = train ∧
    w_rng w' = Nat.iter (length train) (rng_after_attack args) (w_rng w).
Proof.
  destruct (for_each_inv
    (λ i o w', ∃ evs, w_log w' = w_log w ++ evs ∧ Forall batch_event evs ∧
                      attacked evs = take i train ∧
                      w_rng w' = Nat.iter i (rng_after_attack args) (w_rng w))
    train (train_adv_batch args nf thr)) with (s := opt) (w := w)
    as (opt' & w' & E & evs & Hlog & Hevs & Hatt & Hrng).
  - intros i [d t] o w1 Hi (evs & Hlog & Hevs & Hatt & Hrng).
    destruct (train_adv_batch_trace args nf thr d t o w1)
      as (o' & w2 & evs2 & E & Hlog2 & Hevs2 & Hatt2 & _ & Hrng2).
    exists o', w2. split; [done|]. exists (evs ++ evs2).
    split; [by rewrite Hlog2, Hlog, <- app_assoc|].
    split; [by apply Forall_app|].
    split; [|by rewrite Hrng2, Hrng].
    rewrite attacked_app, Hatt, Hatt2. by erewrite take_S_r.
  - exists []. by rewrite app_nil_r.
  - rewrite firstn_all in Hatt. by exists opt', w', evs.
Qed.

Lemma train_adv_epoch_trace args train test nf thr epoch opt st w :
  ∃ opt' w' evs tr te sd,
    train_adv_epoch args train test nf thr epoch (opt, st) w =
      (Ok (opt', stats_after st tr te), w') ∧
    w_log w' = w_log w ++ evs ++
                 epoch_tail args train test nf epoch (best_test_acc st) tr te sd ∧
    Forall batch_event evs ∧ train_round train evs ∧
    w_rng w' = Nat.iter (length train) (rng_after_attack args) (w_rng w).
Proof.
  destruct (train_adv_batches_trace args nf thr train opt w)
    as (opt' & w1 & evs & E & Hlog & Hevs & Hatt & Hrng).
  set (m1 := w_model w1). set (a1 := accuracy m1 train nf).
  set (a2 := accuracy a1.1 test nf).
  exists opt',
    (mkWorld a2.1 (w_rng w1)
       (w_log w1 ++ epoch_tail args train test nf epoch (best_test_acc st) a1.2 a2.2
                      (state_dict a2.1))),
    evs, a1.2, a2.2, (state_dict a2.1).
  split; [|split; [|done]].
  - unfold train_adv_epoch. erewrite bind_ok by exact E.
    mrun. rewrite !py_last_snoc. unfold stats_after, epoch_tail.
    fold m1 a1 a2. cbn [best_test_acc train_accuracy test_accuracy].
    destruct (Rlt_dec (best_test_acc st) a2.2); mrun;
      simpl; rewrite <- !app_assoc; reflexivity.
  - simpl. by rewrite Hlog, <- !app_assoc.
Qed.

Lemma train_adv_epochs_trace args train test nf thr n s opt st w :
  ∃ opt' st' w' L,
    for_each (seq s n) (train_adv_epoch args train test nf thr) (opt, st) w =
      (Ok (opt', st'), w') ∧
    w_log w' = w_log w ++ L ∧
    rounds_log (train_round train) args train test nf s st L st' n ∧
    w_rng w' = Nat.iter (n * length train) (rng_after_attack args) (w_rng w).
Proof.
  revert s opt st w. induction n as [|n IH]; intros s opt st w.
  - exists opt, st, w, []. rewrite app_nil_r.
    split; [done|]. split; [done|]. split; [constructor|done].
  - destruct (train_adv_epoch_trace args train test nf thr s opt st w)
      as (opt1 & w1 & evs & tr & te & sd & E1 & Hlog1 & Hevs & Hround & Hrng1).
    destruct (IH (S s) opt1 (stats_after st tr te) w1)
      as (opt2 & st2 & w2 & L & E2 & Hlog2 & HL & Hrng2).
    exists opt2, st2, w2,
      (evs ++ epoch_tail args train test nf s (best_test_acc st) tr te sd ++ L).
    split.
    { simpl. erewrite bind_ok by exact E1. exact E2. }
    split; [by rewrite Hlog2, Hlog1, <- !app_assoc|].
    split; [by constructor|].
    rewrite Hrng2, Hrng1, <- Nat.iter_add. f_equal. lia.
Qed.

Lemma interleave_snoc {A} (l1 l2 : list A) a b :
  length l1 = length l2 →
  interleave (l1 ++ [a]) (l2 ++ [b]) = interleave l1 l2 ++ [a; b].
Proof.
  intros Hlen. unfold interleave. rewrite zip_with_app by done.
  rewrite concat_app. simpl. done.
Qed.

Lemma interleave_app {A} (l1 l2 k1 k2 : list A) :
  length l1 = length k1 →
  interleave (l1 ++ l2) (k1 ++ k2) = interleave l1 k1 ++ interleave l2 k2.
Proof.
  intros Hlen. unfold interleave. rewrite zip_with_app by done. apply concat_app.
Qed.

Lemma meta_train_batch_trace args val nf thr d t loc w :
  val ≠ [] →
  ∃ loc' w' evs b,
    meta_train_batch args val nf thr (d, t) loc w = (Ok loc', w') ∧
    w_log w' = w_log w ++ evs ∧ Forall batch_event evs ∧
    attacked evs = [(d, t); b] ∧ val_draws evs = [b] ∧
    same_bookkeeping loc loc' ∧
    w_rng w' = rng_after_attack args (rng_after_attack args (w_rng w)).
Proof.
  intros Hval.
  destruct (meta_inner_step_trace args nf thr d t (optim_inner loc) w)
    as (oi & w1 & evs1 & E1 & Hlog1 & Hevs1 & Hatt1 & Hdr1 & Hrng1 & Hg1).
  destruct (next_val_batch_spec val (val_iter loc) w1 Hval)
    as ([d' t'] & it' & evs2 & Hdraw & E2 & Hevs2 & Hdraws2).
  set (w2 := mkWorld (w_model w1) (w_rng w1) (w_log w1 ++ evs2)) in E2.
  destruct (meta_outer_step_trace args nf thr d' t' (optim_outer loc) w2)
    as (oo & w3 & evs3 & E3 & Hlog3 & Hevs3 & Hatt3 & Hdr3 & Hrng3 & Hg3).
  assert (attacked evs2 = []) as Hatt2.
  { destruct (val_iter loc) as [|b0 it0].
    - destruct val as [|b1 v]; [done|].
      rewrite next_val_batch_wrap in E2. injection E2 as _ _ Heq.
      apply app_inv_head in Heq. by subst evs2.
    - rewrite next_val_batch_cons in E2. injection E2 as _ _ Heq.
      apply app_inv_head in Heq. by subst evs2. }
  eexists _, w3, (evs1 ++ evs2 ++ evs3), (d', t'). split.
  { unfold meta_train_batch. erewrite bind_ok by exact E1. cbn beta.
    erewrite bind_ok by exact E2. cbn beta iota.
    erewrite bind_ok by exact E3. reflexivity. }
  split.
  { rewrite Hlog3. unfold w2. simpl. by rewrite Hlog1, <- !app_assoc. }
  split; [by repeat (apply Forall_app; split)|].
  split; [by rewrite !attacked_app, Hatt1, Hatt2, Hatt3|].
  split; [by rewrite !val_draws_app, Hdr1, Hdraws2, Hdr3|].
  split; [done|].
  rewrite Hrng3. unfold w2. simpl. by rewrite Hrng1.
Qed.

Lemma meta_train_batches_trace args train val nf thr loc w :
  val ≠ [] ∨ train = [] →
  ∃ loc' w' evs,
    for_each train (meta_train_batch args val nf thr) loc w = (Ok loc', w') ∧
    w_log w' = w_log w ++ evs ∧ Forall batch_event evs ∧
    meta_round train evs ∧ same_bookkeeping loc loc' ∧
    w_rng w' = Nat.iter (2 * length train) (rng_after_attack args) (w_rng w).
Proof.
  intros Hcond.
  destruct (for_each_inv
    (λ i loc' w', ∃ evs, w_log w' = w_log w ++ evs ∧ Forall batch_event evs ∧
       attacked evs = interleave (take i train) (val_draws evs) ∧
       length (val_draws evs) = i ∧ same_bookkeeping loc loc' ∧
       w_rng w' = Nat.iter (2 * i) (rng_after_attack args) (w_rng w))
    train (meta_train_batch args val nf thr)) with (s := loc) (w := w)
    as (loc' & w' & E & evs & Hlog & Hevs & Hatt & Hlen & Hsame & Hrng).
  - intros i [d t] loc1 w1 Hi (evs & Hlog & Hevs & Hatt & Hlen & Hsame & Hrng).
    assert (val ≠ []) as Hval.
    { destruct Hcond as [Hv|Ht]; [done|]. subst train. by rewrite lookup_nil in Hi. }
    destruct (meta_train_batch_trace args val nf thr d t loc1 w1 Hval)
      as (loc2 & w2 & evs2 & b & E & Hlog2 & Hevs2 & Hatt2 & Hdr2 & Hsame2 & Hrng2).
    exists loc2, w2. split; [done|]. exists (evs ++ evs2).
    split; [by rewrite Hlog2, Hlog, <- app_assoc|].
    split; [by apply Forall_app|].
    rewrite attacked_app, val_draws_app, Hatt, Hatt2, Hdr2, length_app, Hlen.
    split.
    { erewrite take_S_r by done. rewrite interleave_snoc; [done|].
      rewrite length_take, Hlen. apply lookup_lt_Some in Hi. lia. }
    split; [simpl; lia|]. split.
    { destruct Hsame as (? & ? & ? & ? & ?), Hsame2 as (? & ? & ? & ? & ?).
      repeat split; congruence. }
    rewrite Hrng2, Hrng. replace (2 * S i)%nat with (2 + 2 * i)%nat by lia. done.
  - exists []. by rewrite app_nil_r.
  - rewrite firstn_all in Hatt. exists loc', w', evs.
    split; [done|]. split; [done|]. split; [done|]. by split.
Qed.

Lemma meta_train_epoch_trace args train val test nf thr epoch loc w :
  val ≠ [] ∨ train = [] →
  ∃ loc' w' evs tr te sd,
    meta_train_epoch args train val test nf thr epoch loc w = (Ok loc', w') ∧
    stats loc' = stats_after (stats loc) tr te ∧
    length (b_hist loc') = S (length (b_hist loc)) ∧
    length (reg_term_hist loc') = S (length (reg_term_hist loc)) ∧
    w_log w' = w_log w ++ evs ++
                 epoch_tail args train test nf epoch (best_test_acc (stats loc)) tr te sd ∧
    Forall batch_event evs ∧ meta_round train evs ∧
    w_rng w' = Nat.iter (2 * length train) (rng_after_attack args) (w_rng w).
Proof.
  intros Hcond.
  destruct (meta_train_batches_trace args train val nf thr loc w Hcond)
    as (loc1 & w1 & evs & E & Hlog & Hevs & Hround & (Hst & Hb & Hr & _ & _) & Hrng).
  set (m1 := w_model w1). set (a1 := accuracy m1 train nf).
  set (a2 := accuracy a1.1 test nf).
  exists (mkMetaLocals (optim_inner loc1) (optim_outer loc1)
            (stats_after (stats loc1) a1.2 a2.2)
            (b_hist loc1 ++ [get_b_vector a2.1])
            (reg_term_hist loc1 ++ [get_reg_term a2.1]) (val_iter loc1)),
    (mkWorld a2.1 (w_rng w1)
       (w_log w1 ++ epoch_tail args train test nf epoch (best_test_acc (stats loc1))
                      a1.2 a2.2 (state_dict a2.1))),
    evs, a1.2, a2.2, (state_dict a2.1).
  split.
  - unfold meta_train_epoch. erewrite bind_ok by exact E.
    mrun. rewrite !py_last_snoc. unfold stats_after, epoch_tail.
    fold m1 a1 a2. cbn [best_test_acc train_accuracy test_accuracy].
    destruct (Rlt_dec (best_test_acc (stats loc1)) a2.2); mrun;
      simpl; rewrite <- !app_assoc; reflexivity.
  - simpl. rewrite !length_app, Hst, Hb, Hr, Hlog, <- app_assoc. simpl.
    split; [done|]. split; [lia|]. split; [lia|]. by repeat (split; [done|]).
Qed.

Lemma meta_train_epochs_trace args train val test nf thr n s loc w :
  val ≠ [] ∨ train = [] →
  ∃ loc' w' L,
    for_each (seq s n) (meta_train_epoch args train val test nf thr) loc w =
      (Ok loc', w') ∧
    w_log w' = w_log w ++ L ∧
    rounds_log (meta_round train) args train test nf s (stats loc) L (stats loc') n ∧
    length (b_hist loc') = (length (b_hist loc) + n)%nat ∧
    length (reg_term_hist loc') = (length (reg_term_hist loc) + n)%nat ∧
    w_rng w' = Nat.iter (n * (2 * length train)) (rng_after_attack args) (w_rng w).
Proof.
  intros Hcond. revert s loc w. induction n as [|n IH]; intros s loc w.
  - exists loc, w, []. rewrite app_nil_r, !Nat.add_0_r.
    split; [done|]. split; [done|]. split; [constructor|]. by repeat split.
  - destruct (meta_train_epoch_trace args train val test nf thr s loc w Hcond)
      as (loc1 & w1 & evs & tr & te & sd & E1 & Hst1 & Hb1 & Hr1 & Hlog1 & Hevs &
          Hround & Hrng1).
    destruct (IH (S s) loc1 w1) as (loc2 & w2 & L & E2 & Hlog2 & HL & Hb2 & Hr2 & Hrng2).
    exists loc2, w2,
      (evs ++ epoch_tail args train test nf s (best_test_acc (stats loc)) tr te sd ++ L).
    split.
    { simpl. erewrite bind_ok by exact E1. exact E2. }
    split; [by rewrite Hlog2, Hlog1, <- !app_assoc|].
    split; [constructor; try done; by rewrite <- Hst1|].
    split; [lia|]. split; [lia|].
    rewrite Hrng2, Hrng1, <- Nat.iter_add. f_equal. lia.
Qed.

(** ** What the log of a sequence of epochs contains *)

Lemma epoch_tail_projections args train test nf epoch best tr te sd :
  attacked (epoch_tail args train test nf epoch best tr te sd) = [] ∧
  prints (epoch_tail args train test nf epoch best tr te sd) = [((epoch + 1)%nat, (tr, te))] ∧
  np_saved (epoch_tail args train test nf epoch best tr te sd) = [] ∧
  torch_saves (epoch_tail args train test nf epoch best tr te sd) =
    round_saves args (sd, new_best best te).
Proof.
  unfold epoch_tail, round_saves, new_best. by destruct (Rlt_dec best te).
Qed.

Lemma max_acc_snoc l a : max_acc (l ++ [a]) = Rmax (max_acc l) a.
Proof. unfold max_acc. by rewrite foldl_app. Qed.

Lemma stats_after_max st tr te :
  best_test_acc st = max_acc (test_accuracy st) →
  best_test_acc (stats_after st tr te) = max_acc (test_accuracy (stats_after st tr te)).
Proof.
  intros Hb. simpl. rewrite max_acc_snoc, <- Hb. unfold Rmax.
  destruct (Rlt_dec _ _), (Rle_dec _ _); lra.
Qed.

Section Rounds.
Context (P : list event → Prop) (args : Args) (train test : Loader)
        (nf : option (tensor → tensor)).

Lemma rounds_max s st L st' n :
  rounds_log P args train test nf s st L st' n →
  best_test_acc st = max_acc (test_accuracy st) →
  best_test_acc st' = max_acc (test_accuracy st').
Proof.
  induction 1 as [|s st evs tr te sd rest st' n _ _ _ IH]; [done|].
  intros Hb. by apply IH, stats_after_max.
Qed.

Lemma rounds_saves s st L st' n :
  rounds_log P args train test nf s st L st' n →
  ∃ rs, length rs = n ∧ torch_saves L = concat (round_saves args <$> rs) ∧
        np_saved L = [].
Proof.
  induction 1 as [|s st evs tr te sd rest st' n _ Hevs _ (rs & Hlen & Hs & Hn)].
  - by exists [].
  - destruct (batch_events_quiet evs Hevs) as (Hq1 & _ & Hq3).
    destruct (epoch_tail_projections args train test nf s (best_test_acc st) tr te sd)
      as (_ & _ & Ht3 & Ht4).
    exists ((sd, new_best (best_test_acc st) te) :: rs).
    split; [simpl; lia|].
    rewrite !torch_saves_app, !np_saved_app, Hq1, Hq3, Ht3, Ht4, Hs, Hn. done.
Qed.

Lemma rounds_prints s st L st' n :
  rounds_log P args train test nf s st L st' n →
  ∃ trs tes,
    train_accuracy st' = train_accuracy st ++ trs ∧
    test_accuracy st' = test_accuracy st ++ tes ∧
    length trs = n ∧ length tes = n ∧
    prints L = zip (seq (s + 1) n) (zip trs tes).
Proof.
  induction 1
    as [|s st evs tr te sd rest st' n _ Hevs _ (trs & tes & Htr & Hte & Hl1 & Hl2 & Hp)].
  - exists [], []. by rewrite !app_nil_r.
  - destruct (batch_events_quiet evs Hevs) as (_ & Hq2 & _).
    destruct (epoch_tail_projections args train test nf s (best_test_acc st) tr te sd)
      as (_ & Ht2 & _ & _).
    exists (tr :: trs), (te :: tes). simpl in Htr, Hte.
    rewrite Htr, Hte, <- !app_assoc. split; [done|]. split; [done|].
    split; [simpl; lia|]. split; [simpl; lia|].
    rewrite !prints_app, Hq2, Ht2, Hp. simpl.
    by replace (S (s + 1)) with (S s + 1)%nat by lia.
Qed.

End Rounds.

Lemma rounds_attacked_train args train test nf s st L st' n :
  rounds_log (train_round train) args train test nf s st L st' n →
  attacked L = concat (replicate n train).
Proof.
  induction 1 as [|s st evs tr te sd rest st' n Hround _ _ IH]; [done|].
  destruct (epoch_tail_projections args train test nf s (best_test_acc st) tr te sd)
    as (Ht1 & _).
  rewrite !attacked_app, Ht1, IH. simpl. by rewrite Hround.
Qed.

Lemma rounds_attacked_meta args train test nf s st L st' n :
  rounds_log (meta_round train) args train test nf s st L st' n →
  attacked L = interleave (concat (replicate n train)) (val_draws L) ∧
  length (val_draws L) = (n * length train)%nat.
Proof.
  induction 1 as [|s st evs tr te sd rest st' n [Hatt Hlen] _ _ [IH1 IH2]]; [done|].
  destruct (epoch_tail_projections args train test nf s (best_test_acc st) tr te sd)
    as (Ht1 & _).
  rewrite !attacked_app, !val_draws_app, val_draws_epoch_tail, Ht1, IH1, Hatt. simpl.
  rewrite interleave_app by done. rewrite length_app, Hlen, IH2. split; [done|lia].
Qed.

(** ** How a run ends *)

Lemma meta_train_adv_no_epochs train val test args w :
  0 < var_threshold args → (num_epochs args <= 0)%Z →
  meta_train_adv train val test args w =
    (Ok tt, mkWorld (w_model w) (w_rng w)
              (w_log w ++ [EValIter] ++
               meta_final_saves args (meta_train_init args (w_model w) val))).
Proof.
  intros Hv Hn.
  rewrite (meta_train_adv_run _ _ _ _ _ (meta_train_init args (w_model w) val)
             (after_iter w) Hv).
  - simpl. by rewrite <- app_assoc.
  - unfold meta_train_epochs. by replace (Z.to_nat (num_epochs args)) with 0%nat by lia.
Qed.

(** X1. [train_adv] completes exactly when [var_threshold] is positive;
    otherwise [math.log] raises before the model, numpy's generator or any
    collaborator has been touched. *)
Theorem train_adv_completes_iff_positive_threshold args train test w :
  ((train_adv train test args w).1 = Ok tt ↔ 0 < var_threshold args) ∧
  ((train_adv train test args w).1 ≠ Ok tt →
     train_adv train test args w = (Raise ValueError, w)).
Proof.
  destruct (Rlt_dec 0 (var_threshold args)) as [Hv|Hv].
  - destruct (train_adv_completes args train test w Hv)
      as (opt & st & w1 & evs & _ & E & _).
    rewrite E. simpl. by split.
  - rewrite (train_adv_domain_error train test args w Hv). simpl. split; [|done].
    split; [done|tauto].
Qed.

(** X2. [meta_train_adv] ends in one of three ways: with [ValueError], the
    world untouched, exactly when [var_threshold] is not positive; with
    [StopIteration] exactly when the threshold is positive, the validation
    source is empty, there is a training batch and at least one epoch, and
    then nothing was evaluated, saved or printed; and normally in every other
    case. *)
Theorem meta_train_adv_outcomes args train val test w :
  let r := meta_train_adv train val test args w in
  (r.1 = Raise ValueError ↔ ¬ 0 < var_threshold args) ∧
  (r.1 = Raise StopIteration ↔
     0 < var_threshold args ∧ val = [] ∧ train ≠ [] ∧ (1 <= num_epochs args)%Z) ∧
  (r.1 = Ok tt ↔
     0 < var_threshold args ∧ (val ≠ [] ∨ train = [] ∨ (num_epochs args <= 0)%Z)) ∧
  (r.1 = Raise ValueError → r.2 = w) ∧
  (r.1 = Raise StopIteration →
     ∃ evs, w_log r.2 = w_log w ++ evs ∧ Forall batch_event evs ∧
            torch_saves evs = [] ∧ prints evs = [] ∧ np_saved evs = []).
Proof.
  intros r. subst r.
  destruct (Rlt_dec 0 (var_threshold args)) as [Hv|Hv].
  2: { rewrite (meta_train_adv_domain_error train val test args w Hv). simpl.
       split; [done|]. split; [split; [done|tauto]|].
       split; [split; [done|tauto]|]. split; done. }
  assert (val ≠ [] ∨ train = [] ∨ (num_epochs args <= 0)%Z ∨
          (val = [] ∧ (1 <= num_epochs args)%Z ∧ ∃ d t train', train = (d, t) :: train'))
    as [Hc|[Hc|[Hc|(-> & Hn & d & t & train' & ->)]]].
  { destruct val; [|by left]. destruct train as [|[d t] train']; [by right; left|].
    destruct (Z_le_gt_dec (num_epochs args) 0); [by right; right; left|].
    right; right; right. split; [done|]. split; [lia|]. by exists d, t, train'. }
  1,2: (destruct (meta_train_adv_completes args train val test w Hv)
          as (loc & w1 & evs & _ & E & _); [tauto|];
        rewrite E; simpl;
        split; [split; [done|tauto]|];
        split; [split; [done|]; intros (_ & -> & Ht & _); tauto|];
        split; [split; [|done]; intros _; split; [done|tauto]|];
        split; done).
  - rewrite (meta_train_adv_no_epochs train val test args w Hv Hc). simpl.
    split; [split; [done|tauto]|].
    split; [split; [done|]; intros (_ & _ & _ & Hn); lia|].
    split; [split; [|done]; intros _; split; [done|tauto]|].
    split; done.
  - destruct (meta_train_adv_empty_val args d t train' test w Hv Hn)
      as (w' & eps & x_adv & loss & E & Hlog).
    rewrite E. simpl.
    split; [split; [done|tauto]|].
    split; [split; [|done]; intros _; by repeat split|].
    split; [split; [done|]; intros (_ & [Hc|[Hc|Hc]]); [done|done|lia]|].
    split; [done|]. intros _.
    eexists. split; [exact Hlog|].
    assert (Forall batch_event
              ([EValIter] ++ step_log (select_norm args) d t eps x_adv loss ++
               [EValNext None; EValIter; EValNext None])) as Hq
      by (by repeat constructor).
    split; [exact Hq|]. by apply batch_events_quiet.
Qed.

(** X3. With [num_epochs <= 0] the epoch loops do not run: [train_adv]
    leaves the model and numpy's generator as they were and only saves two
    empty accuracy arrays; [meta_train_adv] does the same with four empty
    arrays, after creating the validation iterator it never draws from. No
    checkpoint is written. *)
Theorem no_epochs_saves_empty_histories args train val test w :
  0 < var_threshold args → (num_epochs args <= 0)%Z →
  train_adv train test args w =
    (Ok tt, mkWorld (w_model w) (w_rng w)
              (w_log w ++
               [ENpSave (path_join (output_stats args) "train_acc.npy") [];
                ENpSave (path_join (output_stats args) "test_acc.npy") []])) ∧
  meta_train_adv train val test args w =
    (Ok tt, mkWorld (w_model w) (w_rng w)
              (w_log w ++
               [EValIter;
                ENpSave (path_join (output_stats args) "train_acc.npy") [];
                ENpSave (path_join (output_stats args) "test_acc.npy") [];
                ENpSaveTensors (path_join (output_stats args) "b_hist.npy") [];
                ENpSave (path_join (output_stats args) "reg_term_hist.npy") []])).
Proof.
  intros Hv Hn. split.
  - rewrite (train_adv_run _ _ _ _ (train_adv_init args (w_model w)).1
               (train_adv_init args (w_model w)).2 w Hv); [done|].
    unfold train_adv_epochs. by replace (Z.to_nat (num_epochs args)) with 0%nat by lia.
  - by rewrite (meta_train_adv_no_epochs train val test args w Hv Hn).
Qed.

Lemma train_adv_trace args train test w :
  0 < var_threshold args →
  ∃ st w1 L,
    train_adv train test args w =
      (Ok tt, mkWorld (w_model w1) (w_rng w1) (w_log w ++ L ++ final_saves args st)) ∧
    rounds_log (train_round train) args train test (select_norm args) 0
      (mkStats (-1) [] []) L st (Z.to_nat (num_epochs args)) ∧
    w_rng w1 = Nat.iter (Z.to_nat (num_epochs args) * length train)
                 (rng_after_attack args) (w_rng w).
Proof.
  intros Hv.
  destruct (train_adv_epochs_trace args train test (select_norm args) (threshold_of args)
              (Z.to_nat (num_epochs args)) 0 (train_adv_init args (w_model w)).1
              (train_adv_init args (w_model w)).2 w)
    as (opt & st & w1 & L & E & Hlog & HL & Hrng).
  exists st, w1, L. split; [|done].
  rewrite (train_adv_run _ _ _ _ opt st w1 Hv E). by rewrite Hlog, <- app_assoc.
Qed.

Lemma meta_train_adv_trace args train val test w :
  0 < var_threshold args → val ≠ [] ∨ train = [] →
  ∃ loc w1 L,
    meta_train_adv train val test args w =
      (Ok tt, mkWorld (w_model w1) (w_rng w1)
                (w_log w ++ [EValIter] ++ L ++ meta_final_saves args loc)) ∧
    rounds_log (meta_round train) args train test (select_norm args) 0
      (mkStats (-1) [] []) L (stats loc) (Z.to_nat (num_epochs args)) ∧
    length (b_hist loc) = Z.to_nat (num_epochs args) ∧
    length (reg_term_hist loc) = Z.to_nat (num_epochs args) ∧
    w_rng w1 = Nat.iter (Z.to_nat (num_epochs args) * (2 * length train))
                 (rng_after_attack args) (w_rng w).
Proof.
  intros Hv Hcond.
  destruct (meta_train_epochs_trace args train val test (select_norm args)
              (threshold_of args) (Z.to_nat (num_epochs args)) 0
              (meta_train_init args (w_model w) val) (after_iter w) Hcond)
    as (loc & w1 & L & E & Hlog & HL & Hb & Hr & Hrng).
  exists loc, w1, L. split; [|done].
  rewrite (meta_train_adv_run _ _ _ _ _ loc w1 Hv E). rewrite Hlog. simpl.
  by rewrite <- !app_assoc.
Qed.

(** X4. Whatever the evaluator returns, after any number of epochs the
    marker [best_test_acc] of either trainer is the largest of -1 and the
    test accuracies recorded so far; the next epoch saves to [ckpt_best.pt]
    exactly when its test accuracy is above that value, and the marker then
    becomes the larger of the two. *)
Theorem best_test_acc_is_running_maximum args train val test thr m0 w k :
  (∃ opt st wk opt' st' w' evs te,
     train_adv_epochs args train test thr k (train_adv_init args m0) w =
       (Ok (opt, st), wk) ∧
     best_test_acc st = max_acc (test_accuracy st) ∧
     train_adv_epochs args train test thr (S k) (train_adv_init args m0) w =
       (Ok (opt', st'), w') ∧
     w_log w' = w_log wk ++ evs ∧
     test_accuracy st' = test_accuracy st ++ [te] ∧
     (best_path args ∈ saved_paths evs ↔ max_acc (test_accuracy st) < te) ∧
     best_test_acc st' = Rmax (max_acc (test_accuracy st)) te) ∧
  (val ≠ [] ∨ train = [] →
   ∃ loc wk loc' w' evs te,
     meta_train_epochs args train val test thr k (meta_train_init args m0 val) w =
       (Ok loc, wk) ∧
     best_test_acc (stats loc) = max_acc (test_accuracy (stats loc)) ∧
     meta_train_epochs args train val test thr (S k) (meta_train_init args m0 val) w =
       (Ok loc', w') ∧
     w_log w' = w_log wk ++ evs ∧
     test_accuracy (stats loc') = test_accuracy (stats loc) ++ [te] ∧
     (best_path args ∈ saved_paths evs ↔ max_acc (test_accuracy (stats loc)) < te) ∧
     best_test_acc (stats loc') = Rmax (max_acc (test_accuracy (stats loc))) te).
Proof.
  split.
  - destruct (train_adv_epochs_trace args train test (select_norm args) thr k 0
                (train_adv_init args m0).1 (train_adv_init args m0).2 w)
      as (opt & st & wk & L & E & _ & HL & _).
    pose proof (rounds_max _ _ _ _ _ _ _ _ _ _ HL eq_refl) as Hmax.
    destruct (train_adv_epoch_spec args train test (select_norm args) thr k opt st wk)
      as (opt' & w' & evs & m1 & m2 & sd & E' & Hlog & Hevs & _).
    cbn zeta in E', Hlog.
    eexists opt, st, wk, opt', _, w', _, _. split; [exact E|]. split; [exact Hmax|].
    split.
    { unfold train_adv_epochs in *. rewrite seq_S, for_each_snoc.
      erewrite bind_ok by exact E. exact E'. }
    split; [exact Hlog|]. split; [reflexivity|]. split.
    + rewrite best_saved_iff by done. by rewrite Hmax.
    + rewrite <- max_acc_snoc. by apply stats_after_max.
  - intros Hcond.
    destruct (meta_train_epochs_trace args train val test (select_norm args) thr k 0
                (meta_train_init args m0 val) w Hcond)
      as (loc & wk & L & E & _ & HL & _).
    pose proof (rounds_max _ _ _ _ _ _ _ _ _ _ HL eq_refl) as Hmax.
    destruct (meta_train_epoch_spec args train val test (select_norm args) thr 0 k
                loc wk Hcond)
      as (loc' & w' & evs & m1 & m2 & sd & bv & rt & E' & Hst & _ & _ & _ & _ & Hlog &
          Hevs & _).
    cbn zeta in E', Hst, Hlog.
    eexists loc, wk, loc', w', _, _. split; [exact E|]. split; [exact Hmax|].
    split.
    { unfold meta_train_epochs in *. rewrite seq_S, for_each_snoc.
      erewrite bind_ok by exact E. exact E'. }
    split; [exact Hlog|]. rewrite Hst. split; [reflexivity|]. split.
    + rewrite best_saved_iff by done. by rewrite Hmax.
    + rewrite <- max_acc_snoc. by apply stats_after_max.
Qed.

Lemma final_saves_projections args st :
  attacked (final_saves args st) = [] ∧ torch_saves (final_saves args st) = [] ∧
  prints (final_saves args st) = [] ∧ val_draws (final_saves args st) = [].
Proof. done. Qed.

Lemma meta_final_saves_projections args loc :
  attacked (meta_final_saves args loc) = [] ∧
  torch_saves (meta_final_saves args loc) = [] ∧
  prints (meta_final_saves args loc) = [].
Proof. done. Qed.

(** X5. What a completed run persists and when: each epoch saves the model
    to [ckpt.pt] once and, right after and with the very same state, possibly
    to [ckpt_best.pt]; nothing else is ever passed to [torch.save]; and the
    history arrays are passed to [np.save] once each, in a fixed order. *)
Theorem checkpoint_schedule args train val test w :
  0 < var_threshold args →
  (∃ w' rs,
     train_adv train test args w = (Ok tt, w') ∧
     length rs = Z.to_nat (num_epochs args) ∧
     torch_saves (w_log w') = torch_saves (w_log w) ++ concat (round_saves args <$> rs) ∧
     np_saved (w_log w') = np_saved (w_log w) ++
       [path_join (output_stats args) "train_acc.npy";
        path_join (output_stats args) "test_acc.npy"]) ∧
  (val ≠ [] ∨ train = [] →
   ∃ w' rs,
     meta_train_adv train val test args w = (Ok tt, w') ∧
     length rs = Z.to_nat (num_epochs args) ∧
     torch_saves (w_log w') = torch_saves (w_log w) ++ concat (round_saves args <$> rs) ∧
     np_saved (w_log w') = np_saved (w_log w) ++
       [path_join (output_stats args) "train_acc.npy";
        path_join (output_stats args) "test_acc.npy";
        path_join (output_stats args) "b_hist.npy";
        path_join (output_stats args) "reg_term_hist.npy"]).
Proof.
  intros Hv. split.
  - destruct (train_adv_trace args train test w Hv) as (st & w1 & L & E & HL & _).
    destruct (rounds_saves _ _ _ _ _ _ _ _ _ _ HL) as (rs & Hlen & Hs & Hn).
    eexists _, rs. split; [exact E|]. split; [done|]. cbn [w_log].
    rewrite !torch_saves_app, !np_saved_app, Hs, Hn. simpl. by rewrite app_nil_r.
  - intros Hcond.
    destruct (meta_train_adv_trace args train val test w Hv Hcond)
      as (loc & w1 & L & E & HL & _).
    destruct (rounds_saves _ _ _ _ _ _ _ _ _ _ HL) as (rs & Hlen & Hs & Hn).
    eexists _, rs. split; [exact E|]. split; [done|]. cbn [w_log].
    rewrite !torch_saves_app, !np_saved_app, Hs, Hn. simpl. by rewrite app_nil_r.
Qed.

(** X6. The console and the saved histories agree: the train and the test
    history a completed run saves at the end have one entry per epoch, and
    the run prints one line per epoch, numbered from 1 in order, the
    accuracies on line [i] being entry [i] of the two histories. *)
Theorem printed_lines_match_histories args train val test w :
  0 < var_threshold args →
  (∃ w' pre trs tes,
     train_adv train test args w = (Ok tt, w') ∧
     w_log w' = w_log w ++ pre ++
       [ENpSave (path_join (output_stats args) "train_acc.npy") trs;
        ENpSave (path_join (output_stats args) "test_acc.npy") tes] ∧
     length trs = Z.to_nat (num_epochs args) ∧
     length tes = Z.to_nat (num_epochs args) ∧
     prints (w_log w') = prints (w_log w) ++
       zip (seq 1 (Z.to_nat (num_epochs args))) (zip trs tes)) ∧
  (val ≠ [] ∨ train = [] →
   ∃ w' pre trs tes bh rh,
     meta_train_adv train val test args w = (Ok tt, w') ∧
     w_log w' = w_log w ++ pre ++
       [ENpSave (path_join (output_stats args) "train_acc.npy") trs;
        ENpSave (path_join (output_stats args) "test_acc.npy") tes;
        ENpSaveTensors (path_join (output_stats args) "b_hist.npy") bh;
        ENpSave (path_join (output_stats args) "reg_term_hist.npy") rh] ∧
     length trs = Z.to_nat (num_epochs args) ∧
     length tes = Z.to_nat (num_epochs args) ∧
     prints (w_log w') = prints (w_log w) ++
       zip (seq 1 (Z.to_nat (num_epochs args))) (zip trs tes)).
Proof.
  intros Hv. split.
  - destruct (train_adv_trace args train test w Hv) as (st & w1 & L & E & HL & _).
    destruct (rounds_prints _ _ _ _ _ _ _ _ _ _ HL)
      as (trs & tes & Htr & Hte & Hl1 & Hl2 & Hp).
    simpl in Htr, Hte.
    eexists _, L, trs, tes. split; [exact E|]. cbn [w_log].
    unfold final_saves. rewrite Htr, Hte. split; [done|].
    split; [done|]. split; [done|].
    rewrite !prints_app, Hp. simpl. by rewrite app_nil_r.
  - intros Hcond.
    destruct (meta_train_adv_trace args train val test w Hv Hcond)
      as (loc & w1 & L & E & HL & _).
    destruct (rounds_prints _ _ _ _ _ _ _ _ _ _ HL)
      as (trs & tes & Htr & Hte & Hl1 & Hl2 & Hp).
    simpl in Htr, Hte.
    eexists _, ([EValIter] ++ L), trs, tes, _, _. split; [exact E|]. cbn [w_log].
    unfold meta_final_saves, final_saves. rewrite Htr, Hte, <- !app_assoc.
    split; [done|]. split; [done|]. split; [done|].
    rewrite !prints_app, Hp. simpl. by rewrite app_nil_r.
Qed.

(** X7. In a completed run of [train_adv] the attack is called on the raw
    batches of the training source, each batch once per epoch, in the
    source's order, and on nothing else. *)
Theorem train_adv_attacks_each_batch_once_per_epoch args train test w :
  0 < var_threshold args →
  ∃ w',
    train_adv train test args w = (Ok tt, w') ∧
    attacked (w_log w') =
      attacked (w_log w) ++ concat (replicate (Z.to_nat (num_epochs args)) train).
Proof.
  intros Hv.
  destruct (train_adv_trace args train test w Hv) as (st & w1 & L & E & HL & _).
  eexists. split; [exact E|]. cbn [w_log].
  rewrite !attacked_app, (rounds_attacked_train _ _ _ _ _ _ _ _ _ HL). simpl.
  by rewrite app_nil_r.
Qed.

(** X8. In a completed run of [meta_train_adv] the attack is called
    alternately on a training batch (inner step) and on the validation batch
    just drawn (outer step): the training batches come in the source's
    order, each once per epoch, and the outer step never runs on a batch
    other than the one the cursor handed out. *)
Theorem meta_train_adv_attacks_alternate args train val test w :
  0 < var_threshold args → val ≠ [] ∨ train = [] →
  ∃ w' ds,
    meta_train_adv train val test args w = (Ok tt, w') ∧
    val_draws (w_log w') = val_draws (w_log w) ++ ds ∧
    length ds = (Z.to_nat (num_epochs args) * length train)%nat ∧
    attacked (w_log w') =
      attacked (w_log w) ++
      interleave (concat (replicate (Z.to_nat (num_epochs args)) train)) ds.
Proof.
  intros Hv Hcond.
  destruct (meta_train_adv_trace args train val test w Hv Hcond)
    as (loc & w1 & L & E & HL & _).
  destruct (rounds_attacked_meta _ _ _ _ _ _ _ _ _ HL) as [Hatt Hlen].
  exists (meta_train_adv train val test args w).2, (val_draws L).
  rewrite E. cbn [fst snd w_log]. split; [done|].
  rewrite !val_draws_app, !attacked_app, Hatt. simpl.
  rewrite !app_nil_r. by repeat split.
Qed.

Lemma iter_rng_not_rand args n g :
  epsilon args ≠ PyStr "rand" → Nat.iter n (rng_after_attack args) g = g.
Proof.
  intros Hne. induction n as [|n IH]; [done|]. simpl. rewrite IH.
  unfold rng_after_attack.
  destruct (py_eq_str (epsilon args) "rand") eqn:Er; [|done].
  by apply py_eq_str_true in Er.
Qed.

Lemma iter_rng_rand args n g :
  epsilon args = PyStr "rand" →
  Nat.iter n (rng_after_attack args) g = Nat.iter n (λ g, (np_next g).2) g.
Proof.
  intros He. induction n as [|n IH]; [done|]. simpl. rewrite IH.
  unfold rng_after_attack. by rewrite He.
Qed.

(** X9. The trainers draw from numpy's generator only for
    [epsilon == "rand"]: with any other [epsilon] a completed run leaves the
    generator in the state it found; with ["rand"] it has advanced it by one
    draw per attack call, that is [num_epochs * len(train)] draws in
    [train_adv] and twice as many in [meta_train_adv]. *)
Theorem numpy_generator_use args train val test w :
  0 < var_threshold args →
  (∃ w',
     train_adv train test args w = (Ok tt, w') ∧
     (epsilon args ≠ PyStr "rand" → w_rng w' = w_rng w) ∧
     (epsilon args = PyStr "rand" →
        w_rng w' = Nat.iter (Z.to_nat (num_epochs args) * length train)
                     (λ g, (np_next g).2) (w_rng w))) ∧
  (val ≠ [] ∨ train = [] →
   ∃ w',
     meta_train_adv train val test args w = (Ok tt, w') ∧
     (epsilon args ≠ PyStr "rand" → w_rng w' = w_rng w) ∧
     (epsilon args = PyStr "rand" →
        w_rng w' = Nat.iter (Z.to_nat (num_epochs args) * (2 * length train))
                     (λ g, (np_next g).2) (w_rng w))).
Proof.
  intros Hv. split.
  - destruct (train_adv_trace args train test w Hv) as (st & w1 & L & E & _ & Hrng).
    eexists. split; [exact E|]. simpl. rewrite Hrng.
    split; intros He; [by apply iter_rng_not_rand|by apply iter_rng_rand].
  - intros Hcond.
    destruct (meta_train_adv_trace args train val test w Hv Hcond)
      as (loc & w1 & L & E & _ & _ & _ & Hrng).
    eexists. split; [exact E|]. simpl. rewrite Hrng.
    split; intros He; [by apply iter_rng_not_rand|by apply iter_rng_rand].
Qed.

(** ** Output files *)

Lemma last_ascii_app (p f : string) :
  f ≠ ""%string →
  last (String.list_ascii_of_string (p ++ f)) = last (String.list_ascii_of_string f).
Proof.
  intros Hf. induction p as [|c p IH]; [done|]. simpl.
  destruct (String.list_ascii_of_string (p ++ f)) as [|c' l] eqn:El; [|done].
  destruct p, f; simpl in El; done.
Qed.

Lemma path_join_last dir file :
  file ≠ ""%string →
  last (String.list_ascii_of_string (path_join dir file)) =
  last (String.list_ascii_of_string file).
Proof.
  intros Hf. unfold path_join. destruct (String.eqb dir ""); [done|].
  destruct (ends_with_sep dir).
  - by apply last_ascii_app.
  - rewrite last_ascii_app; [|by destruct file]. by apply (last_ascii_app "/").
Qed.

Lemma path_join_inj dir f1 f2 : path_join dir f1 = path_join dir f2 → f1 = f2.
Proof.
  unfold path_join. destruct (String.eqb dir ""); [done|].
  destruct (ends_with_sep dir); intros E; apply string_app_inj_l in E; [done|].
  by injection E.
Qed.

(** X10. Whatever the two output directories are (equal, empty, with or
    without a trailing separator), the two checkpoints and the four history
    arrays of a run go to six different paths: no output overwrites
    another. *)
Theorem output_files_are_distinct args : NoDup (output_files args).
Proof.
  unfold output_files, ckpt_path, best_path.
  repeat (apply NoDup_cons; split;
    [rewrite ?elem_of_cons, elem_of_nil; intros Hin;
     repeat (destruct Hin as [Hin|Hin];
       [first [ apply path_join_inj in Hin; discriminate
              | apply (f_equal (λ s, last (String.list_ascii_of_string s))) in Hin;
                rewrite !path_join_last in Hin by done; discriminate ]|]);
     done|]).
  apply NoDup_nil_2.
Qed.

(** ** Which parameters the optimizers reach *)

(** X11. The optimizer of [train_adv] is built over every parameter of the
    model. Those of [meta_train_adv] are built over exactly the parameters
    below the four inner and the two outer sub-modules; a parameter below
    none of the six is in neither scope, and no step of either optimizer
    changes it. *)
Theorem optimizer_coverage args (m0 : Model) (it : list Batch) (oi oo : Adam) :
  param_groups oi = groups_of inner_modules m0 →
  param_groups oo = groups_of outer_modules m0 →
  (∀ n, n ∈ scope (train_adv_init args m0).1 ↔ is_Some (named_parameters m0 !! n)) ∧
  param_groups (optim_inner (meta_train_init args m0 it)) = groups_of inner_modules m0 ∧
  param_groups (optim_outer (meta_train_init args m0 it)) = groups_of outer_modules m0 ∧
  (∀ n, n ∈ scope oi ↔
        is_Some (named_parameters m0 !! n) ∧ ∃ p, p ∈ inner_modules ∧ p `prefix_of` n) ∧
  (∀ n, n ∈ scope oo ↔
        is_Some (named_parameters m0 !! n) ∧ ∃ p, p ∈ outer_modules ∧ p `prefix_of` n) ∧
  (∀ m n, (∀ p, p ∈ inner_modules ++ outer_modules → ¬ p `prefix_of` n) →
     (n ∉ scope oi) ∧ (n ∉ scope oo) ∧
     named_parameters (Adam_step adam_init adam_update oi m).2 !! n =
       named_parameters m !! n ∧
     named_parameters (Adam_step adam_init adam_update oo m).2 !! n =
       named_parameters m !! n).
Proof.
  intros Hi Ho.
  assert (∀ mods o n, param_groups o = groups_of mods m0 →
            n ∈ scope o ↔
            is_Some (named_parameters m0 !! n) ∧ ∃ p, p ∈ mods ∧ p `prefix_of` n)
    as Hscope.
  { intros mods o n Hg. unfold scope. rewrite Hg, elem_of_groups_of. split.
    - intros (p & Hp & Hpre & Hs). split; [done|]. by exists p.
    - intros (Hs & p & Hp & Hpre). by exists p. }
  split.
  { intros n. unfold scope. simpl. rewrite app_nil_r, elem_of_parameters.
    split; [by intros [_ Hs]|]. intros Hs. split; [apply prefix_nil|done]. }
  split; [done|]. split; [done|].
  split; [intros n; by apply Hscope|]. split; [intros n; by apply Hscope|].
  intros m n Hfree.
  assert (n ∉ scope oi) as Hni.
  { rewrite (Hscope inner_modules) by done. intros (_ & p & Hp & Hpre).
    apply (Hfree p); [|done]. apply elem_of_app. by left. }
  assert (n ∉ scope oo) as Hno.
  { rewrite (Hscope outer_modules) by done. intros (_ & p & Hp & Hpre).
    apply (Hfree p); [|done]. apply elem_of_app. by right. }
  split; [done|]. split; [done|]. split; by apply Adam_step_frame.
Qed.

End Properties.

(** * The statements at work in the small concrete world *)

Local Open Scope R_scope.

Lemma toy_accuracy_in_unit_interval : accuracy_in_unit_interval.
Proof. intros m l nf. simpl. lra. Qed.

Lemma toy_var_threshold_pos : 0 < var_threshold toy_args.
Proof. simpl. lra. Qed.

(** A validation source of one batch against five training batches. *)
Lemma validation_cursor_wraps_witness :
  toy_val ≠ [] ∧
  (meta_train_adv toy_train5 toy_val []
     toy_args toy_world).1 ≠ Raise StopIteration.
Proof.
  split; [discriminate|].
  apply (validation_cursor_wraps toy_args toy_train5
           toy_val [] toy_world).
  discriminate.
Defined.

Lemma meta_optimizer_scopes_witness :
  let loc := meta_train_init toy_args toy_model [] in
  param_groups (optim_inner loc) = groups_of inner_modules toy_model ∧
  param_groups (optim_outer loc) = groups_of outer_modules toy_model ∧
  ∀ n, n ∈ scope (optim_inner loc) → n ∉ scope (optim_outer loc).
Proof.
  intros loc. split; [reflexivity|]. split; [reflexivity|].
  apply (meta_optimizer_scopes_disjoint_and_framed toy_model (optim_inner loc)
           (optim_outer loc)); reflexivity.
Defined.

Lemma meta_loss_is_train_loss_with_live_reg_term_witness :
  0 < var_threshold toy_args ∧
  ∃ (loc : MetaLocals) (w' : World) (L : list event),
    meta_train_adv toy_train toy_val toy_test toy_args toy_world = (Ok tt, w') ∧
    w_log w' = w_log toy_world ++ [EValIter] ++ L ++ meta_final_saves toy_args loc ∧
    rounds_log
      (train_batches_log
         (meta_batch_log
            (pass_with_loss (select_norm toy_args)
               (meta_loss_at toy_args (threshold_of toy_args)))
            (pass_with_loss (select_norm toy_args)
               (meta_loss_at toy_args (threshold_of toy_args))))
         toy_train)
      toy_args toy_train toy_test (select_norm toy_args) 0 (mkStats (-1) [] []) L
      (stats loc) 1.
Proof.
  split; [exact toy_var_threshold_pos|].
  destruct (meta_loss_is_train_loss_with_live_reg_term (ext := toy_external) toy_args
              toy_var_threshold_pos) as (_ & _ & H3).
  apply (H3 toy_train toy_val toy_test toy_world). left. discriminate.
Defined.





Lemma best_checkpoint_iff_new_maximum_witness :
  accuracy_in_unit_interval ∧
  ∃ opt st wk opt' st' w' evs te,
    train_adv_epochs toy_args toy_train toy_test 0 1
      (train_adv_init toy_args toy_model) toy_world = (Ok (opt, st), wk) ∧
    train_adv_epochs toy_args toy_train toy_test 0 2
      (train_adv_init toy_args toy_model) toy_world = (Ok (opt', st'), w') ∧
    w_log w' = w_log wk ++ evs ∧
    length (test_accuracy st) = 1%nat ∧
    test_accuracy st' = test_accuracy st ++ [te] ∧
    (best_path toy_args ∈ saved_paths evs ↔ ∀ a, a ∈ test_accuracy st → a < te) ∧
    best_test_acc st <= best_test_acc st'.
Proof.
  split; [exact toy_accuracy_in_unit_interval|].
  apply (best_checkpoint_iff_new_maximum toy_args toy_train toy_val toy_test
           0 toy_model toy_world 1 toy_accuracy_in_unit_interval).
Defined.

Lemma histories_have_num_epochs_entries_witness :
  (0 <= num_epochs toy_args)%Z ∧
  ∃ w', meta_train_adv toy_train toy_val toy_test toy_args toy_world =
          (Ok tt, w').
Proof.
  split; [done|].
  apply (histories_have_num_epochs_entries toy_args toy_train toy_val
           toy_test toy_world); [done|exact toy_var_threshold_pos|].
  left. discriminate.
Defined.

Lemma normalization_iff_cifar10_witness :
  (dataset toy_args = "cifar10"%string ↔ select_norm toy_args = Some normalize_cifar10) ∧
  ∃ (st : Stats) (w' : World) (L : list event),
    train_adv toy_train toy_test toy_args toy_world = (Ok tt, w') ∧
    w_log w' = w_log toy_world ++ L ++ final_saves toy_args st ∧
    accuracy_calls (w_log w') =
      accuracy_calls (w_log toy_world) ++
      [(toy_train, select_norm toy_args); (toy_test, select_norm toy_args)].
Proof.
  destruct (normalization_iff_cifar10 (ext := toy_external) toy_args)
    as (H1 & _ & _ & H4 & _).
  split; [exact H1|].
  destruct (H4 toy_var_threshold_pos toy_train toy_test toy_world)
    as (st & w' & L & E & Hlog & _ & Hacc).
  exists st, w', L. split; [exact E|]. split; [exact Hlog|exact Hacc].
Defined.

Lemma empty_validation_source_aborts_witness :
  0 < var_threshold toy_args ∧ (1 <= num_epochs toy_args)%Z ∧
  ∃ w' eps x_adv loss,
    meta_train_adv toy_train ([] : @Loader toy_carriers) toy_test toy_args toy_world =
      (Raise StopIteration, w') ∧
    w_log w' = w_log toy_world ++ [EValIter] ++
                 step_log (carriers := toy_carriers) (select_norm toy_args) 1%nat 0%nat eps x_adv loss ++
                 [EValNext None; EValIter; EValNext None].
Proof.
  split; [exact toy_var_threshold_pos|]. split; [done|].
  apply (empty_validation_source_aborts (ext := toy_external) toy_args 1%nat 0%nat [] toy_test toy_world
           toy_var_threshold_pos).
  done.
Defined.

Lemma first_epoch_writes_best_witness :
  accuracy_in_unit_interval ∧ 0 < var_threshold toy_args ∧
  (1 <= num_epochs toy_args)%Z ∧
  ∃ w' pre sd tr te post,
    train_adv toy_train toy_test toy_args toy_world = (Ok tt, w') ∧
    w_log w' = w_log toy_world ++ pre ++
                 [ETorchSave sd (best_path toy_args); EPrint 1 tr te] ++ post ∧
    Forall (λ e, is_print e = false) pre.
Proof.
  split; [exact toy_accuracy_in_unit_interval|].
  split; [exact toy_var_threshold_pos|]. split; [done|].
  apply (first_epoch_writes_best toy_args toy_train toy_val toy_test toy_world
           toy_accuracy_in_unit_interval); [done|exact toy_var_threshold_pos].
Defined.

Lemma no_epochs_saves_empty_histories_witness :
  0 < var_threshold no_epoch_args ∧ (num_epochs no_epoch_args <= 0)%Z ∧
  train_adv toy_train toy_test no_epoch_args toy_world =
    (Ok tt, mkWorld (w_model toy_world) (w_rng toy_world)
              (w_log toy_world ++
               [ENpSave (path_join (output_stats no_epoch_args) "train_acc.npy") [];
                ENpSave (path_join (output_stats no_epoch_args) "test_acc.npy") []])).
Proof.
  assert (0 < var_threshold no_epoch_args) as Hv by (simpl; lra).
  split; [exact Hv|]. split; [done|].
  apply (no_epochs_saves_empty_histories no_epoch_args toy_train toy_val toy_test
           toy_world Hv).
  done.
Defined.

Lemma checkpoint_schedule_witness :
  0 < var_threshold toy_args ∧
  ∃ w' rs,
    train_adv toy_train toy_test toy_args toy_world = (Ok tt, w') ∧
    length rs = Z.to_nat (num_epochs toy_args) ∧
    torch_saves (w_log w') =
      torch_saves (w_log toy_world) ++ concat (round_saves toy_args <$> rs) ∧
    np_saved (w_log w') = np_saved (w_log toy_world) ++
      [path_join (output_stats toy_args) "train_acc.npy";
       path_join (output_stats toy_args) "test_acc.npy"].
Proof.
  split; [exact toy_var_threshold_pos|].
  apply (checkpoint_schedule toy_args toy_train toy_val toy_test toy_world
           toy_var_threshold_pos).
Defined.

Lemma printed_lines_match_histories_witness :
  0 < var_threshold toy_args ∧
  ∃ w' pre trs tes,
    train_adv toy_train toy_test toy_args toy_world = (Ok tt, w') ∧
    w_log w' = w_log toy_world ++ pre ++
      [ENpSave (path_join (output_stats toy_args) "train_acc.npy") trs;
       ENpSave (path_join (output_stats toy_args) "test_acc.npy") tes] ∧
    length trs = Z.to_nat (num_epochs toy_args) ∧
    length tes = Z.to_nat (num_epochs toy_args) ∧
    prints (w_log w') = prints (w_log toy_world) ++
      zip (seq 1 (Z.to_nat (num_epochs toy_args))) (zip trs tes).
Proof.
  split; [exact toy_var_threshold_pos|].
  apply (printed_lines_match_histories toy_args toy_train toy_val toy_test toy_world
           toy_var_threshold_pos).
Defined.

Lemma train_adv_attacks_each_batch_once_per_epoch_witness :
  0 < var_threshold toy_args ∧
  ∃ w',
    train_adv toy_train5 toy_test toy_args toy_world = (Ok tt, w') ∧
    attacked (w_log w') =
      attacked (w_log toy_world) ++
      concat (replicate (Z.to_nat (num_epochs toy_args)) toy_train5).
Proof.
  split; [exact toy_var_threshold_pos|].
  apply (train_adv_attacks_each_batch_once_per_epoch toy_args toy_train5 toy_test
           toy_world toy_var_threshold_pos).
Defined.

Lemma meta_train_adv_attacks_alternate_witness :
  0 < var_threshold toy_args ∧ (toy_val ≠ [] ∨ toy_train5 = []) ∧
  ∃ w' ds,
    meta_train_adv toy_train5 toy_val toy_test toy_args toy_world = (Ok tt, w') ∧
    val_draws (w_log w') = val_draws (w_log toy_world) ++ ds ∧
    length ds = (Z.to_nat (num_epochs toy_args) * length toy_train5)%nat ∧
    attacked (w_log w') =
      attacked (w_log toy_world) ++
      interleave (concat (replicate (Z.to_nat (num_epochs toy_args)) toy_train5)) ds.
Proof.
  assert (toy_val ≠ [] ∨ toy_train5 = []) as Hc by (left; discriminate).
  split; [exact toy_var_threshold_pos|]. split; [exact Hc|].
  apply (meta_train_adv_attacks_alternate toy_args toy_train5 toy_val toy_test toy_world
           toy_var_threshold_pos Hc).
Defined.

Lemma numpy_generator_use_witness :
  0 < var_threshold toy_args ∧
  ∃ w',
    train_adv toy_train toy_test toy_args toy_world = (Ok tt, w') ∧
    (epsilon toy_args ≠ PyStr "rand" → w_rng w' = w_rng toy_world) ∧
    (epsilon toy_args = PyStr "rand" →
       w_rng w' = Nat.iter (Z.to_nat (num_epochs toy_args) * length toy_train)
                    (λ g, (np_next g).2) (w_rng toy_world)).
Proof.
  split; [exact toy_var_threshold_pos|].
  apply (numpy_generator_use toy_args toy_train toy_val toy_test toy_world
           toy_var_threshold_pos).
Defined.

(** In the small model, ["classifier.weight"] is reached by neither
    optimizer of the meta trainer. *)
Lemma optimizer_coverage_witness :
  let loc := meta_train_init toy_args toy_model [] in
  param_groups (optim_inner loc) = groups_of inner_modules toy_model ∧
  param_groups (optim_outer loc) = groups_of outer_modules toy_model ∧
  ∀ n, n ∈ scope (train_adv_init toy_args toy_model).1 ↔
       is_Some (named_parameters toy_model !! n).
Proof.
  intros loc. split; [reflexivity|]. split; [reflexivity|].
  apply (optimizer_coverage toy_args toy_model [] (optim_inner loc) (optim_outer loc));
    reflexivity.
Defined.
